(** * lsst::cpputils::Cache — a cache of the most recently used values

    Shallow embedding of [include/lsst/cpputils/Cache.h] (the build without
    [LSST_CACHE_DEBUG], which the header leaves undefined) and the
    properties of its public interface.

    The [boost::multi_index_container] of the header holds one set of
    elements under two indices: a [sequenced] index (most recently used
    element first) and a [hashed_unique] index on the key.  It is modelled
    by the list of its elements in sequence order; the hashed index is the
    search by key over that list, and its uniqueness check is the guard of
    [emplace_front].  The hashed index of the header is declared with
    [KeyHash] only, so that keys are compared with [std::equal_to<Key>]:
    keys are compared with [=] here, and [KeyHash] is taken to agree with
    it.  [std::size_t] values are only compared in the header, never
    computed with; they are natural numbers here. *)

From Stdlib Require Import Arith Lia.
From stdpp Require Import base decidable option list strings gmap.
From Equations Require Import Equations.

Set Default Proof Using "Type".

(** ** The container *)

Section Container.
Context {Key Value : Type} `{EqDecision Key}.

(** [typedef std::pair<Key, Value> Element;] *)
Definition Element : Type := Key * Value.

(** Elements in the order of the [Sequence] index, [begin()] first. *)
Definition Container : Type := list Element.

(** An iterator of the [Hash] index: [None] is [end()], [Some e] points at
    the node holding [e].  The header never modifies a stored element and
    never dereferences an iterator after an erasure, so a node is
    identified with its element. *)
Definition iterator : Type := option Element.

(** [get<Hash>().find(key)] *)
Fixpoint hash_find (key : Key) (l : Container) : iterator :=
  match l with
  | [] => None
  | e :: l' => if decide (e.1 = key) then Some e else hash_find key l'
  end.

(** Unlinking the node of [key] from the sequence. *)
Fixpoint unlink (key : Key) (l : Container) : Container :=
  match l with
  | [] => []
  | e :: l' => if decide (e.1 = key) then l' else e :: unlink key l'
  end.

(** [relocate(get<Sequence>().begin(), project<Sequence>(it))]: the node
    of [it] is unlinked and linked again before the first element.  The
    header calls it under [found] only, never with [end()]. *)
Definition relocate_begin (it : iterator) (l : Container) : Container :=
  match it with
  | Some e => e :: unlink e.1 l
  | None => l
  end.

(** [get<Sequence>().emplace_front(key, value)]: the [hashed_unique]
    index refuses an element whose key is already stored. *)
Definition emplace_front (key : Key) (value : Value) (l : Container)
  : Container :=
  match hash_find key l with
  | Some _ => l
  | None => (key, value) :: l
  end.

(** [get<Sequence>().pop_back()] *)
Definition pop_back (l : Container) : Container := removelast l.

(** ** The cache object *)

Record Cache : Type := mkCache {
  _maxElements : nat;      (* Maximum number of elements; 0 means infinite *)
  _container : Container   (* Container of key,value pairs *)
}.

(** [Cache(std::size_t maxElements=0)] *)
Definition new_Cache (maxElements : nat) : Cache :=
  mkCache maxElements [].

Definition set_container (c : Cache) (l : Container) : Cache :=
  mkCache (_maxElements c) l.

Definition set_maxElements (c : Cache) (n : nat) : Cache :=
  mkCache n (_container c).

Definition cache_size (c : Cache) : nat := length (_container c).
Definition cache_capacity (c : Cache) : nat := _maxElements c.

(** The loop of [_trim]:
    [while (size() > capacity()) pop_back();] *)
Equations? trim_loop (c : Cache) : Cache
  by wf (length (_container c)) lt :=
  trim_loop c with decide (cache_capacity c < cache_size c) => {
    | left _ := trim_loop (set_container c (pop_back (_container c)));
    | right _ := c }.
Proof.
  unfold cache_size, pop_back in *.
  rewrite removelast_firstn_len, length_take. lia.
Qed.

(** The loop of [flush]: [while (size() > 0) pop_back();] *)
Equations? flush_loop (c : Cache) : Cache
  by wf (length (_container c)) lt :=
  flush_loop c with decide (0 < cache_size c) => {
    | left _ := flush_loop (set_container c (pop_back (_container c)));
    | right _ := c }.
Proof.
  unfold cache_size, pop_back in *.
  rewrite removelast_firstn_len, length_take. lia.
Qed.

End Container.

Arguments Element : clear implicits.
Arguments Container : clear implicits.
Arguments iterator : clear implicits.
Arguments Cache : clear implicits.

(** ** Member functions

    A member function runs on the cache object and on the part of the
    program state that a [Generator] may read and change ([World]); it
    returns a value or throws.  An exception leaves the state as it is at
    the [throw]. *)

Section Methods.
Context {Key Value : Type} `{EqDecision Key}.
Context {Exn World : Type}.

(** What a member function can throw: the [NotFoundError] of
    [operator[]], which carries the key of its message
    ("Unable to find key: %s"), or whatever the generator threw. *)
Inductive exception : Type :=
| NotFoundError (key : Key)
| GeneratorError (e : Exn).

(** [Undefined] is undefined behaviour: dereferencing [end()]. *)
Inductive outcome (A : Type) : Type :=
| Returned (a : A)
| Thrown (x : exception)
| Undefined.
Global Arguments Returned {A} a.
Global Arguments Thrown {A} x.
Global Arguments Undefined {A}.

Definition state : Type := Cache Key Value * World.

Definition M (A : Type) : Type := state → outcome A * state.

Definition ret {A} (a : A) : M A := λ s, (Returned a, s).

Definition bind {A B} (m : M A) (f : A → M B) : M B :=
  λ s, match m s with
       | (Returned a, s') => f a s'
       | (Thrown x, s') => (Thrown x, s')
       | (Undefined, s') => (Undefined, s')
       end.

Definition throw {A} (x : exception) : M A := λ s, (Thrown x, s).

Definition undefined {A} : M A := λ s, (Undefined, s).

(** [*this] *)
Definition this : M (Cache Key Value) := λ s, (Returned s.1, s).

Definition assign (c : Cache Key Value) : M unit :=
  λ s, (Returned tt, (c, s.2)).

(** [Value func(Key const& key)]: a generator returns a value or throws,
    and may change the world; it does not call into the cache that
    invokes it. *)
Definition Generator : Type := Key → World → (Value + Exn) * World.

Definition invoke (func : Generator) (key : Key) : M Value :=
  λ s, match func key s.2 with
       | (inl value, w) => (Returned value, (s.1, w))
       | (inr e, w) => (Thrown (GeneratorError e), (s.1, w))
       end.

(** [it->...] *)
Definition deref (it : iterator Key Value) : M (Element Key Value) :=
  match it with
  | Some e => ret e
  | None => undefined
  end.
End Methods.

Arguments exception : clear implicits.
Arguments outcome : clear implicits.
Arguments state : clear implicits.
Arguments M : clear implicits.
Arguments Generator : clear implicits.

Notation "'let*' p := m 'in' k" := (bind m (λ p, k))
  (at level 10, p pattern, m at level 100, k at level 200,
   format "'[v' 'let*'  p  :=  m  'in'  '/' k ']'").
Notation "m ;;; k" := (bind m (λ _, k))
  (at level 100, k at level 200, right associativity,
   format "'[v' m  ;;;  '/' k ']'").

Section Api.
Context {Key Value : Type} `{EqDecision Key}.
Context {Exn World : Type}.

Abbreviation Cache := (Cache Key Value).
Abbreviation M := (M Key Value Exn World).
Abbreviation Generator := (Generator Key Value Exn World).

(** [std::size_t size() const { return _container.size(); }] *)
Definition size : M nat :=
  let* c := this in ret (length (_container c)).

(** [std::size_t capacity() const { return _maxElements; }] *)
Definition capacity : M nat :=
  let* c := this in ret (_maxElements c).

(** Trim the cache to size *)
Definition _trim : M unit :=
  let* cap := capacity in
  if decide (cap = 0) then ret tt  (* Allowed to grow without limit *)
  else let* c := this in assign (trim_loop c).

(** Lookup key in the container.  Returns the iterator and whether
    there's anything there.  If the key exists, updates the cache to
    make that key the most recent. *)
Definition _lookup (key : Key) : M (iterator Key Value * bool) :=
  let* c := this in
  let it := hash_find key (_container c) in
  let found := bool_decide (is_Some it) in
  (if found
   then assign (set_container c (relocate_begin it (_container c)))
   else ret tt) ;;;
  ret (it, found).

(** Add a key-value pair that are not already present *)
Definition _addNew (key : Key) (value : Value) : M unit :=
  let* c := this in
  assign (set_container c (emplace_front key value (_container c))) ;;;
  _trim.

(** [Value operator()(Key const& key, Generator func)] *)
Definition operator_call (key : Key) (func : Generator) : M Value :=
  let* (it, found) := _lookup key in
  if found then
    let* (_, value) := deref it in ret value
  else
    let* value := invoke func key in
    _addNew key value ;;;
    ret value.

(** [Value operator[](Key const& key)] *)
Definition operator_index (key : Key) : M Value :=
  let* (it, found) := _lookup key in
  if found then
    let* (_, value) := deref it in ret value
  else
    throw (NotFoundError key).

(** [void add(Key const& key, Value const& value)] *)
Definition add (key : Key) (value : Value) : M unit :=
  let* (it, found) := _lookup key in
  if negb found then _addNew key value else ret tt.

(** [std::vector<Key> keys() const]: the loop pushes the key of every
    element, in sequence order, at the back of [result]. *)
Definition keys : M (list Key) :=
  let* c := this in
  ret (foldl (λ result keyValue, result ++ [keyValue.1]) []
             (_container c)).

(** [bool contains(Key const& key) { return _lookup(key).second; }] *)
Definition contains (key : Key) : M bool :=
  let* (it, found) := _lookup key in ret found.

(** [std::optional<Value> get(Key const& key)] *)
Definition get (key : Key) : M (option Value) :=
  let* (it, found) := _lookup key in
  if found then
    let* (_, value) := deref it in ret (Some value)
  else
    ret None.

(** [void reserve(std::size_t maxElements)] *)
Definition reserve (maxElements : nat) : M unit :=
  let* c := this in
  assign (set_maxElements c maxElements) ;;;
  _trim.

(** [void flush()] *)
Definition flush : M unit :=
  let* c := this in assign (flush_loop c).

(** ** Programs over the public interface *)

(** One call of a public member function. *)
Inductive method : Type :=
| Call (key : Key) (func : Generator)
| Index (key : Key)
| Add (key : Key) (value : Value)
| Size
| Keys
| Contains (key : Key)
| Get (key : Key)
| Capacity
| Reserve (maxElements : nat)
| Flush.

Definition discard {A} (m : M A) : M unit := m ;;; ret tt.

Definition perform (op : method) : M unit :=
  match op with
  | Call key func => discard (operator_call key func)
  | Index key => discard (operator_index key)
  | Add key value => add key value
  | Size => discard size
  | Keys => discard keys
  | Contains key => discard (contains key)
  | Get key => discard (get key)
  | Capacity => discard capacity
  | Reserve n => reserve n
  | Flush => flush
  end.

(** The state a call leaves, whether it returned or threw (the caller
    catches and goes on). *)
Definition after {A} (m : M A) (s : state Key Value World)
  : state Key Value World := (m s).2.

Definition result_of {A} (m : M A) (s : state Key Value World)
  : outcome Key Exn A := (m s).1.

(** A property of every call of a sequence of calls, stated on the
    states before and after the call. *)
Fixpoint each_call (P : state Key Value World → state Key Value World → Prop)
    (ops : list method) (s : state Key Value World) : Prop :=
  match ops with
  | [] => True
  | op :: ops' =>
      let s' := after (perform op) s in P s s' ∧ each_call P ops' s'
  end.

Definition run (ops : list method) (s : state Key Value World)
  : state Key Value World :=
  foldl (λ s op, after (perform op) s) s ops.

(** The states a cache object can be in: constructed, then used through
    its public member functions. *)
Definition reachable (s : state Key Value World) : Prop :=
  ∃ maxElements w ops, s = run ops (new_Cache maxElements, w).

(** The key a call looks up, for the calls that go through [_lookup]. *)
Definition accessed_key (op : method) : option Key :=
  match op with
  | Call key _ | Index key | Add key _ | Contains key | Get key => Some key
  | Size | Keys | Capacity | Reserve _ | Flush => None
  end.

(** The calls that insert. *)
Definition inserting (op : method) : bool :=
  match op with
  | Add _ _ | Call _ _ => true
  | _ => false
  end.
End Api.

Arguments method : clear implicits.
Arguments reachable {Key Value _} Exn {World} s.

(** ** What the member functions compute

    The effect of the private helpers on the cache object, in closed form;
    the properties below relate the member functions to these. *)

Section Effects.
Context {Key Value : Type} `{EqDecision Key}.
Implicit Types (key : Key) (c : Cache Key Value).

(** The keys in sequence order, most recently used first. *)
Definition key_list c : list Key := (_container c).*1.

(** The value stored under a key. *)
Definition stored key c : option Value :=
  snd <$> hash_find key (_container c).

(** The entry of [key], when there is one, moved to the head. *)
Definition promoted key c : Cache Key Value :=
  set_container c
    (relocate_begin (hash_find key (_container c)) (_container c)).

(** With a capacity, only the first [capacity()] elements are kept. *)
Definition trimmed c : Cache Key Value :=
  if decide (_maxElements c = 0) then c
  else set_container c (take (_maxElements c) (_container c)).

(** A new element at the head, then the trim. *)
Definition inserted key (value : Value) c : Cache Key Value :=
  trimmed (set_container c (emplace_front key value (_container c))).

(** The capacity bound of the header: [size() <= capacity()] unless the
    capacity is 0. *)
Definition bounded c : Prop :=
  0 < cache_capacity c → cache_size c ≤ cache_capacity c.

(** What a call of a public member function can do to the cache object. *)
Inductive cache_step c : Cache Key Value → Prop :=
| step_same : cache_step c c
| step_promoted key : cache_step c (promoted key c)
| step_inserted key value :
    stored key c = None → cache_step c (inserted key value c)
| step_reserved n : cache_step c (trimmed (set_maxElements c n))
| step_flushed : cache_step c (set_container c []).
End Effects.

(** ** Instrumented generators *)

(** [counting func] does what [func] does and also counts how often it is
    invoked, in a counter kept next to the world of [func]. *)
Definition counting {Key Value Exn World : Type}
    (func : Generator Key Value Exn World)
  : Generator Key Value Exn (nat * World) :=
  λ key nw,
    let '(r, w') := func key nw.2 in (r, (S nw.1, w')).

(** ** Sample data for the instances below *)

(** A generator that computes the length of its key, and one that always
    throws. *)
Definition length_of : Generator string nat unit unit :=
  λ key w, (inl (String.length key), w).

Definition failing : Generator string nat unit unit :=
  λ key w, (inr (), w).

(** A cache of capacity 2 that holds J (most recent) and K. *)
Definition cache_JK : Cache string nat := mkCache 2 [("J", 1); ("K", 5)].

(** A full cache of capacity 1. *)
Definition cache_J : Cache string nat := mkCache 1 [("J", 1)].

(** * lsst::cpputils::python::TemplateInvoker

    Shallow embedding of [include/lsst/cpputils/python/TemplateInvoker.h]:
    the dispatch of a templated callable on the name of a dtype object.
    What belongs to nanobind and to Python is a parameter: the dtype
    values [nb::dtype<T>()] with their [operator==], the objects passed
    from Python with their [name] attribute and the [tp_name] of their
    type, and the results of the callbacks. *)

(** The C++ types of the table of [get_dtype], and any other type [T] a
    [Tag] may list. *)
Inductive ctype : Type :=
| uint8_t | uint16_t | uint32_t | uint64_t
| int8_t | int16_t | int32_t | int64_t
| float | double
| other_type (T : string).

Section TemplateInvoker.
Context {DType : Type} `{EqDecision DType}.
Context (nb_dtype : ctype → DType).            (* nb::dtype<T>() *)
Context {Object Result Exn : Type}.

(** What [apply] can throw: the [std::out_of_range] of [get_dtype], the
    [nanobind::type_error] of [handleErrorDefault] (with the message it
    gives to [PyErr_Format]), or anything else that a callback or the
    access to the [name] attribute throws. *)
Inductive invoker_exception : Type :=
| out_of_range (what : string)
| type_error (message : string)
| other_exception (e : Exn).

Context (name_of : Object → invoker_exception + string).
                                      (* nb::cast<std::string>(dtype.attr("name")) *)
Context (tp_name : Object → string).  (* dtype.ptr()->ob_type->tp_name *)

(** [using OnErrorCallback =
      std::function<nanobind::object(nanobind::object const & dtype)>] *)
Definition OnErrorCallback : Type := Object → invoker_exception + Result.

(** A callable with an [operator()] for every listed type; it is called
    with [static_cast<T>(0)], so that only the type matters, and its
    result is converted with [nb::cast]. *)
Definition Function : Type := ctype → invoker_exception + Result.

(** Callback used for handling unmatched-type errors by default. *)
Definition handleErrorDefault : OnErrorCallback :=
  λ dtype, inl (type_error ("dtype '" +:+ tp_name dtype +:+ "' not supported.")).

Record TemplateInvoker : Type := mkTemplateInvoker {
  _onError : OnErrorCallback
}.

(** [explicit TemplateInvoker(OnErrorCallback onError)] *)
Definition new_TemplateInvoker (onError : OnErrorCallback) : TemplateInvoker :=
  mkTemplateInvoker onError.

(** [TemplateInvoker() : TemplateInvoker(handleErrorDefault)] *)
Definition default_TemplateInvoker : TemplateInvoker :=
  new_TemplateInvoker handleErrorDefault.

(** The rows of [dtype_map]. *)
Definition dtype_rows : list (string * ctype) :=
  [("uint8", uint8_t); ("uint16", uint16_t); ("uint32", uint32_t);
   ("uint64", uint64_t); ("int8", int8_t); ("int16", int16_t);
   ("int32", int32_t); ("int64", int64_t); ("float32", float);
   ("float64", double)].

(** [static const std::map<std::string, nb::dlpack::dtype> dtype_map] *)
Definition dtype_map : gmap string DType :=
  list_to_map (prod_map id nb_dtype <$> dtype_rows).

(** [get_dtype]: [dtype_map.at(type)], with the exception of [at]
    replaced. *)
Definition get_dtype (type : string) : invoker_exception + DType :=
  match dtype_map !! type with
  | Some result => inr result
  | None => inl (out_of_range ("TemplateInvoker: Invalid type " +:+ type))
  end.

(** The two overloads of [_apply], on [Tag<>] and on [Tag<T, A...>]. *)
Fixpoint _apply (self : TemplateInvoker) (function : Function)
    (dtype : Object) (typesToTry : list ctype)
  : invoker_exception + Result :=
  match typesToTry with
  | [] => _onError self dtype
  | T :: A =>
      match name_of dtype with
      | inl e => inl e
      | inr name =>
          match get_dtype name with
          | inl e => inl e
          | inr type =>
              if decide (type = nb_dtype T) then function T
              else _apply self function dtype A
          end
      end
  end.

(** [apply(function, dtype, typesToTry)] *)
Definition apply (self : TemplateInvoker) (function : Function)
    (dtype : Object) (typesToTry : list ctype)
  : invoker_exception + Result :=
  _apply self function dtype typesToTry.
End TemplateInvoker.

Arguments invoker_exception : clear implicits.
Arguments TemplateInvoker : clear implicits.
Arguments OnErrorCallback : clear implicits.
Arguments Function : clear implicits.

(** ** Sample data for the TemplateInvoker instances below *)

(** Type code and bit width as dlpack has them (Int = 0, UInt = 1,
    Float = 2); any other type stands for one that shares the dtype of
    [int64_t], as [long long] does. *)
Definition sample_dtype (T : ctype) : nat * nat :=
  match T with
  | uint8_t => (1, 8) | uint16_t => (1, 16)
  | uint32_t => (1, 32) | uint64_t => (1, 64)
  | int8_t => (0, 8) | int16_t => (0, 16)
  | int32_t => (0, 32) | int64_t => (0, 64)
  | float => (2, 32) | double => (2, 64)
  | other_type _ => (0, 64)
  end.

(** A dtype object is given by its name; its Python type is
    [numpy.dtype]. *)
Definition sample_name : string → invoker_exception unit + string := inr.

Definition sample_tp_name : string → string := λ _, "numpy.dtype".

(** A callable that reports the size of the type it is called at, and an
    error callback that answers 0. *)
Definition sample_function : Function nat unit :=
  λ T, inr (sample_dtype T).2.

Definition sample_invoker : TemplateInvoker string nat unit :=
  new_TemplateInvoker (λ _, inr 0).

(** * Properties *)

(** ** The container operations *)

Section ContainerFacts.
Context {Key Value : Type} `{EqDecision Key}.
Implicit Types (key : Key) (e : Element Key Value).
Implicit Types (l : Container Key Value) (c : Cache Key Value).

Lemma set_container_same c : set_container c (_container c) = c.
Proof. by destruct c. Qed.

Lemma hash_find_Some key l e :
  hash_find key l = Some e → e.1 = key ∧ e ∈ l.
Proof.
  induction l as [|x l IH]; simpl; [done|].
  destruct (decide (x.1 = key)) as [Hx|Hx].
  - intros [= <-]. split; [done|]. apply list_elem_of_here.
  - intros [? ?]%IH. split; [done|]. by apply list_elem_of_further.
Qed.

Lemma hash_find_None key l : hash_find key l = None ↔ key ∉ l.*1.
Proof.
  induction l as [|x l IH]; simpl.
  - split; [intros _; apply not_elem_of_nil|done].
  - rewrite not_elem_of_cons. destruct (decide (x.1 = key)) as [Hx|Hx].
    + split; [done|]. by intros [? _].
    + rewrite IH. intuition congruence.
Qed.

Lemma hash_find_is_Some key l : is_Some (hash_find key l) ↔ key ∈ l.*1.
Proof.
  rewrite <-not_eq_None_Some, hash_find_None.
  destruct (decide (key ∈ l.*1)); naive_solver.
Qed.

(** A stored element and the rest of the sequence make up the
    sequence. *)
Lemma unlink_Permutation key l e :
  hash_find key l = Some e → e :: unlink key l ≡ₚ l.
Proof.
  revert e. induction l as [|x l IH]; simpl; intros e; [done|].
  destruct (decide (x.1 = key)) as [Hx|Hx].
  - by intros [= <-].
  - intros He. rewrite Permutation_swap. by rewrite (IH e He).
Qed.

Lemma length_relocate_begin key l :
  length (relocate_begin (hash_find key l) l) = length l.
Proof.
  destruct (hash_find key l) as [e|] eqn:He; simpl; [|done].
  destruct (hash_find_Some _ _ _ He) as [-> _].
  by rewrite <-(Permutation_length (unlink_Permutation _ _ _ He)).
Qed.

Lemma pop_back_take l : pop_back l = take (pred (length l)) l.
Proof. apply removelast_firstn_len. Qed.

(** The loop of [_trim] leaves the first [capacity()] elements. *)
Lemma trim_loop_take c :
  trim_loop c = set_container c (take (_maxElements c) (_container c)).
Proof.
  funelim (trim_loop c).
  - match goal with IH : trim_loop _ = set_container _ _ |- _ => rewrite IH end.
    unfold set_container, cache_capacity, cache_size in *. simpl.
    rewrite pop_back_take, take_take. f_equal. f_equal. lia.
  - unfold cache_capacity, cache_size in *.
    rewrite take_ge by lia. by rewrite set_container_same.
Qed.

(** The loop of [flush] leaves nothing. *)
Lemma flush_loop_nil c : flush_loop c = set_container c [].
Proof.
  funelim (flush_loop c).
  - match goal with IH : flush_loop _ = set_container _ _ |- _ => by rewrite IH end.
  - unfold cache_size in *. destruct c as [? [|? ?]]; simpl in *; [done|lia].
Qed.

Lemma keys_loop_fmap (l : Container Key Value) :
  foldl (λ result keyValue, result ++ [keyValue.1]) [] l = l.*1.
Proof.
  enough (∀ acc : list Key,
    foldl (λ result keyValue, result ++ [keyValue.1]) acc l = acc ++ l.*1)
    as Hacc by apply (Hacc []).
  induction l as [|x l IH]; intros acc; simpl.
  - by rewrite app_nil_r.
  - by rewrite IH, <-app_assoc.
Qed.
End ContainerFacts.

(** ** The member functions in closed form *)

Section MethodFacts.
Context {Key Value : Type} `{EqDecision Key}.
Context {Exn World : Type}.
Implicit Types (key : Key) (value : Value) (w : World).
Implicit Types (c : Cache Key Value) (func : Generator Key Value Exn World).

Abbreviation M := (M Key Value Exn World).

Lemma found_Some (e : Element Key Value) :
  bool_decide (is_Some (Some e)) = true.
Proof. apply bool_decide_eq_true_2. by exists e. Qed.

Lemma found_None : bool_decide (is_Some (@None (Element Key Value))) = false.
Proof. apply bool_decide_eq_false_2, is_Some_None. Qed.

Lemma promoted_absent key c :
  hash_find key (_container c) = None → promoted key c = c.
Proof.
  unfold promoted. intros ->. simpl. apply set_container_same.
Qed.

Lemma promoted_present key c e :
  hash_find key (_container c) = Some e →
  promoted key c = set_container c (e :: unlink key (_container c)).
Proof.
  unfold promoted. intros He. rewrite He. simpl.
  by destruct (hash_find_Some _ _ _ He) as [-> _].
Qed.

Lemma run_size c w : (size : M nat) (c, w) = (Returned (length (_container c)), (c, w)).
Proof. done. Qed.

Lemma run_capacity c w :
  (capacity : M nat) (c, w) = (Returned (_maxElements c), (c, w)).
Proof. done. Qed.

Lemma run_keys c w : (keys : M (list Key)) (c, w) = (Returned (key_list c), (c, w)).
Proof.
  unfold keys, bind, this, ret, key_list. simpl. by rewrite keys_loop_fmap.
Qed.

Lemma run_trim c w : (_trim : M unit) (c, w) = (Returned tt, (trimmed c, w)).
Proof.
  unfold _trim, trimmed, capacity, bind, this, ret, assign. simpl.
  destruct (decide (_maxElements c = 0)); [done|].
  simpl. by rewrite trim_loop_take.
Qed.

Lemma run_lookup key c w :
  (_lookup key : M _) (c, w)
  = (Returned (hash_find key (_container c),
               bool_decide (is_Some (hash_find key (_container c)))),
     (promoted key c, w)).
Proof.
  unfold _lookup, bind, this, ret, assign. simpl.
  destruct (hash_find key (_container c)) as [e|] eqn:He.
  - rewrite found_Some. simpl. rewrite (promoted_present _ _ _ He).
    by destruct (hash_find_Some _ _ _ He) as [-> _].
  - rewrite found_None. simpl. by rewrite (promoted_absent _ _ He).
Qed.

Lemma run_addNew key value c w :
  (_addNew key value : M unit) (c, w)
  = (Returned tt, (inserted key value c, w)).
Proof.
  unfold _addNew, bind at 1 2. unfold this, assign. simpl.
  by rewrite run_trim.
Qed.

Lemma run_contains key c w :
  (contains key : M bool) (c, w)
  = (Returned (bool_decide (key ∈ key_list c)), (promoted key c, w)).
Proof.
  unfold contains, bind. rewrite run_lookup. unfold ret. do 2 f_equal.
  apply bool_decide_ext, hash_find_is_Some.
Qed.

Lemma run_get key c w :
  (get key : M (option Value)) (c, w)
  = (Returned (stored key c), (promoted key c, w)).
Proof.
  unfold get, bind at 1. rewrite run_lookup. unfold stored.
  destruct (hash_find key (_container c)) as [[k v]|].
  - by rewrite found_Some.
  - by rewrite found_None.
Qed.

Lemma run_operator_index key c w :
  (operator_index key : M Value) (c, w)
  = match stored key c with
    | Some value => (Returned value, (promoted key c, w))
    | None => (Thrown (NotFoundError key), (c, w))
    end.
Proof.
  unfold operator_index, bind at 1. rewrite run_lookup. unfold stored.
  destruct (hash_find key (_container c)) as [[k v]|] eqn:He.
  - by rewrite found_Some.
  - rewrite found_None. simpl. unfold throw. by rewrite promoted_absent.
Qed.

Lemma run_add key value c w :
  (add key value : M unit) (c, w)
  = (Returned tt,
     (match stored key c with
      | Some _ => promoted key c
      | None => inserted key value c
      end, w)).
Proof.
  unfold add, bind at 1. rewrite run_lookup. unfold stored.
  destruct (hash_find key (_container c)) as [[k v]|] eqn:He.
  - by rewrite found_Some.
  - rewrite found_None. simpl. by rewrite run_addNew, promoted_absent.
Qed.

Lemma run_operator_call key func c w :
  operator_call key func (c, w)
  = match stored key c with
    | Some value => (Returned value, (promoted key c, w))
    | None =>
        match func key w with
        | (inl value, w') => (Returned value, (inserted key value c, w'))
        | (inr e, w') => (Thrown (GeneratorError e), (c, w'))
        end
    end.
Proof.
  unfold operator_call, bind at 1. rewrite run_lookup. unfold stored.
  destruct (hash_find key (_container c)) as [[k v]|] eqn:He.
  - by rewrite found_Some.
  - rewrite found_None. simpl. rewrite promoted_absent by done.
    unfold bind at 1. unfold invoke. simpl.
    destruct (func key w) as [[value|e] w']; [|done].
    unfold bind. by rewrite run_addNew.
Qed.

Lemma run_reserve maxElements c w :
  (reserve maxElements : M unit) (c, w)
  = (Returned tt, (trimmed (set_maxElements c maxElements), w)).
Proof.
  unfold reserve, bind at 1 2. unfold this, assign. simpl.
  by rewrite run_trim.
Qed.

Lemma run_flush c w :
  (flush : M unit) (c, w) = (Returned tt, (set_container c [], w)).
Proof.
  unfold flush, bind, this, assign. simpl. by rewrite flush_loop_nil.
Qed.
End MethodFacts.

(** ** What one call does to the cache object *)

Section Steps.
Context {Key Value : Type} `{EqDecision Key}.
Context {Exn World : Type}.
Implicit Types (key : Key) (value : Value) (w : World).
Implicit Types (c : Cache Key Value) (s : state Key Value World).
Implicit Types (op : method Key Value Exn World).
Implicit Types (ops : list (method Key Value Exn World)).

Lemma perform_step op c w : cache_step c (after (perform op) (c, w)).1.
Proof.
  unfold after.
  destruct op as [key func|key|key value| | |key|key| |n|]; cbn [perform];
    unfold discard, bind.
  - rewrite run_operator_call. destruct (stored key c) eqn:Hs; simpl.
    + apply step_promoted.
    + destruct (func key w) as [[value|e] w']; simpl.
      * by apply step_inserted.
      * apply step_same.
  - rewrite run_operator_index. destruct (stored key c); simpl.
    + apply step_promoted.
    + apply step_same.
  - rewrite run_add. cbn [fst snd]. destruct (stored key c) eqn:Hs.
    + apply step_promoted.
    + by apply step_inserted.
  - rewrite run_size. apply step_same.
  - rewrite run_keys. apply step_same.
  - rewrite run_contains. apply step_promoted.
  - rewrite run_get. apply step_promoted.
  - rewrite run_capacity. apply step_same.
  - rewrite run_reserve. apply step_reserved.
  - rewrite run_flush. apply step_flushed.
Qed.

(** An inserting call promotes, inserts or (a generator that throws)
    leaves the cache as it is. *)
Lemma perform_inserting_step op c w :
  inserting op = true →
  (after (perform op) (c, w)).1 = c
  ∨ (∃ key, (after (perform op) (c, w)).1 = promoted key c)
  ∨ (∃ key value, stored key c = None
                  ∧ (after (perform op) (c, w)).1 = inserted key value c).
Proof.
  intros Hop. unfold after.
  destruct op as [key func|key|key value| | |key|key| |n|]; try done;
    cbn [perform]; unfold discard, bind.
  - rewrite run_operator_call. destruct (stored key c) eqn:Hs; simpl.
    + right; left. by exists key.
    + destruct (func key w) as [[value|e] w']; simpl.
      * right; right. by exists key, value.
      * by left.
  - rewrite run_add. cbn [fst snd]. destruct (stored key c) eqn:Hs.
    + right; left. by exists key.
    + right; right. by exists key, value.
Qed.

Lemma capacity_trimmed c : cache_capacity (trimmed c) = cache_capacity c.
Proof. unfold trimmed. by destruct (decide _). Qed.

Lemma bounded_trimmed c : bounded (trimmed c).
Proof.
  unfold bounded, trimmed, cache_capacity, cache_size.
  destruct (decide (_maxElements c = 0)); simpl; [lia|].
  rewrite length_take. lia.
Qed.

Lemma size_promoted key c : cache_size (promoted key c) = cache_size c.
Proof. apply length_relocate_begin. Qed.

Lemma cache_step_bounded c c' : cache_step c c' → bounded c → bounded c'.
Proof.
  destruct 1; intros Hc; try done.
  - unfold bounded. by rewrite size_promoted.
  - apply bounded_trimmed.
  - apply bounded_trimmed.
  - unfold bounded, cache_size. simpl. lia.
Qed.

Lemma run_bounded ops s : bounded s.1 → bounded (run ops s).1.
Proof.
  unfold run. revert s. induction ops as [|op ops IH]; intros [c w] Hc.
  - done.
  - simpl. apply IH. eapply cache_step_bounded; [|done]. apply perform_step.
Qed.

Lemma reachable_bounded s : reachable Exn s → bounded s.1.
Proof.
  intros (n & w & ops & ->). apply run_bounded.
  unfold bounded, cache_size. simpl. lia.
Qed.

Lemma reachable_after op s :
  reachable Exn s → reachable Exn (after (perform op) s).
Proof.
  intros (n & w & ops & ->). exists n, w, (ops ++ [op]).
  unfold run. by rewrite foldl_app.
Qed.

Lemma hash_find_unlink_ne k key (l : Container Key Value) :
  k ≠ key → hash_find k (unlink key l) = hash_find k l.
Proof.
  intros Hk. induction l as [|x l IH]; simpl; [done|].
  destruct (decide (x.1 = key)) as [Hx|Hx]; simpl.
  - rewrite decide_False; [done|congruence].
  - by rewrite IH.
Qed.

(** Promotion does not change what is stored under any key. *)
Lemma stored_promoted k key c : stored k (promoted key c) = stored k c.
Proof.
  unfold stored, promoted. simpl.
  destruct (hash_find key (_container c)) as [e|] eqn:He; simpl; [|done].
  destruct (hash_find_Some _ _ _ He) as [Hk _].
  destruct (decide (e.1 = k)) as [Hek|Hne].
  - by rewrite <-Hek, Hk, He.
  - rewrite hash_find_unlink_ne; [done|congruence].
Qed.

(** Promoting the head changes nothing. *)
Lemma promoted_head key c e (l : Container Key Value) :
  _container c = e :: l → e.1 = key → promoted key c = c.
Proof.
  unfold promoted. intros Hc Hk. rewrite Hc. simpl.
  rewrite decide_True by done. simpl. rewrite decide_True by done.
  rewrite <-Hc. apply set_container_same.
Qed.

Lemma promoted_promoted key c :
  promoted key (promoted key c) = promoted key c.
Proof.
  destruct (hash_find key (_container c)) as [e|] eqn:He.
  - rewrite (promoted_present _ _ _ He).
    apply (promoted_head _ _ e (unlink key (_container c))); [done|].
    by destruct (hash_find_Some _ _ _ He).
  - by rewrite !(promoted_absent _ _ He).
Qed.

(** The sequence around a stored element: promotion moves the element
    to the head and keeps the order of the others. *)
Lemma promoted_split key c e :
  hash_find key (_container c) = Some e →
  ∃ l1 l2 : Container Key Value,
    _container c = l1 ++ e :: l2 ∧ (key ∉ l1.*1)
    ∧ _container (promoted key c) = e :: (l1 ++ l2).
Proof.
  intros He. rewrite (promoted_present _ _ _ He). simpl.
  revert He. generalize (_container c) as l.
  induction l as [|x l IH]; simpl; [done|].
  destruct (decide (x.1 = key)) as [Hx|Hx].
  - intros [= <-]. exists [], l. split; [done|]. split; [|done].
    apply not_elem_of_nil.
  - intros (l1 & l2 & -> & Hl1 & [= Hu])%IH.
    exists (x :: l1), l2. split; [done|]. split.
    + simpl. rewrite not_elem_of_cons. split; [congruence|done].
    + simpl. by rewrite Hu.
Qed.

(** An insertion of an absent key: the new element is at the head, and
    with a capacity the cache keeps [capacity() - 1] of the others. *)
Lemma container_inserted key value c :
  stored key c = None →
  _container (inserted key value c)
  = (key, value) ::
      (if decide (cache_capacity c = 0) then _container c
       else take (cache_capacity c - 1) (_container c)).
Proof.
  unfold stored, inserted, trimmed, emplace_front, cache_capacity.
  intros ->%fmap_None. simpl.
  destruct (decide (_maxElements c = 0)) as [H0|H0]; simpl; [done|].
  destruct (_maxElements c) as [|n]; [done|]. simpl. by rewrite Nat.sub_0_r.
Qed.

Lemma stored_inserted key value c :
  stored key c = None → stored key (inserted key value c) = Some value.
Proof.
  intros Hs. unfold stored. rewrite (container_inserted _ _ _ Hs). simpl.
  by rewrite decide_True.
Qed.

Lemma promoted_inserted key value c :
  stored key c = None →
  promoted key (inserted key value c) = inserted key value c.
Proof.
  intros Hs. eapply promoted_head; [by apply container_inserted|done].
Qed.

(** A call that looks up a stored key promotes its entry and does
    nothing else. *)
Lemma perform_access_present op key c w :
  accessed_key op = Some key → is_Some (stored key c) →
  after (perform op) (c, w) = (promoted key c, w).
Proof.
  intros Hop [v Hv]. unfold after.
  destruct op as [k func|k|k value| | |k|k| |n|]; try done;
    injection Hop as ->; cbn [perform]; unfold discard, bind.
  - by rewrite run_operator_call, Hv.
  - by rewrite run_operator_index, Hv.
  - by rewrite run_add, Hv.
  - by rewrite run_contains.
  - by rewrite run_get.
Qed.

(** A property of single calls that an invariant establishes holds for
    each call of a sequence. *)
Lemma each_call_invariant
    (I : state Key Value World → Prop)
    (P : state Key Value World → state Key Value World → Prop)
    (Q : method Key Value Exn World → Prop) ops s :
  (∀ op s, Q op → I s →
     I (after (perform op) s) ∧ P s (after (perform op) s)) →
  Forall Q ops → I s → each_call P ops s.
Proof.
  intros HP Hops. revert s.
  induction Hops as [|op ops Hop _ IH]; intros s Hs; simpl; [done|].
  destruct (HP op s Hop Hs) as [HI HPs]. split; [done|]. by apply IH.
Qed.

Lemma stored_None key c :
  stored key c = None ↔ key ∉ key_list c.
Proof. unfold stored, key_list. rewrite fmap_None. apply hash_find_None. Qed.

Lemma key_list_promoted key c : key_list (promoted key c) ≡ₚ key_list c.
Proof.
  unfold key_list, promoted. simpl.
  destruct (hash_find key (_container c)) as [e|] eqn:He; simpl; [|done].
  destruct (hash_find_Some _ _ _ He) as [<- _].
  exact (fmap_Permutation fst _ _ (unlink_Permutation _ _ _ He)).
Qed.

Lemma capacity_promoted key c :
  cache_capacity (promoted key c) = cache_capacity c.
Proof. done. Qed.

Lemma capacity_inserted key value c :
  cache_capacity (inserted key value c) = cache_capacity c.
Proof. unfold inserted. by rewrite capacity_trimmed. Qed.

(** An insertion into an unbounded cache only links the new element. *)
Lemma inserted_unbounded key value c :
  cache_capacity c = 0 → stored key c = None →
  inserted key value c = set_container c ((key, value) :: _container c).
Proof.
  unfold cache_capacity, inserted, trimmed, emplace_front, stored.
  intros Hcap ->%fmap_None. simpl. by rewrite decide_True.
Qed.

(** Keys are unique in every state of a cache object, as the
    [hashed_unique] index has it. *)
Lemma cache_step_NoDup c c' :
  cache_step c c' → NoDup (key_list c) → NoDup (key_list c').
Proof.
  assert (∀ c0, NoDup (key_list c0) → NoDup (key_list (trimmed c0))) as Htrim.
  { intros c0 Hc0. unfold trimmed, key_list in *.
    destruct (decide (_maxElements c0 = 0)); [done|]. simpl.
    rewrite fmap_take. eapply sublist_NoDup; [done|apply sublist_take]. }
  destruct 1; intros Hc; try done.
  - by rewrite key_list_promoted.
  - apply Htrim. unfold key_list, emplace_front. simpl.
    match goal with Hs : stored _ _ = None |- _ =>
      pose proof Hs as Hkey; apply stored_None in Hkey;
      unfold stored in Hs; apply fmap_None in Hs as -> end.
    by apply NoDup_cons.
  - by apply Htrim.
  - apply NoDup_nil_2.
Qed.

Lemma reachable_NoDup s : reachable Exn s → NoDup (key_list s.1).
Proof.
  intros (n & w & ops & ->). unfold run.
  assert (NoDup (key_list (new_Cache (Key := Key) (Value := Value) n)))
    as Hnew by apply NoDup_nil_2.
  revert Hnew. generalize (new_Cache (Key := Key) (Value := Value) n) as c.
  revert w. induction ops as [|op ops IH]; intros w c Hc; [done|].
  simpl. pose proof (perform_step op c w) as Hstep.
  destruct (after (perform op) (c, w)) as [c' w'].
  apply IH. by eapply cache_step_NoDup.
Qed.

(** No call of [add] or [operator()] evicts from an unbounded cache. *)
Lemma inserting_unbounded op s :
  inserting op = true → cache_capacity s.1 = 0 →
  let s' := after (perform op) s in
  cache_capacity s'.1 = 0 ∧ key_list s.1 ⊆ key_list s'.1
  ∧ cache_size s.1 ≤ cache_size s'.1.
Proof.
  destruct s as [c w]. intros Hop Hcap. cbn zeta. cbn [fst] in Hcap |- *.
  destruct (perform_inserting_step op c w Hop)
    as [->|[[key ->]|(key & value & Hs & ->)]].
  - done.
  - rewrite capacity_promoted, size_promoted.
    split; [done|]. split; [|done].
    intros k. by rewrite key_list_promoted.
  - rewrite capacity_inserted. split; [done|].
    rewrite inserted_unbounded by done.
    unfold key_list, cache_size. simpl. split; [|lia].
    intros k ?. by apply list_elem_of_further.
Qed.

Lemma add_all_unbounded (entries : list (Element Key Value)) s :
  cache_capacity s.1 = 0 →
  NoDup entries.*1 → (∀ key, key ∈ entries.*1 → key ∉ key_list s.1) →
  _container (run (Exn := Exn) (map (λ e, Add e.1 e.2) entries) s).1
  = reverse entries ++ _container s.1.
Proof.
  unfold run. revert s.
  induction entries as [|[k v] entries IH]; intros [c w] Hcap Hnd Hnew.
  - done.
  - simpl in *. apply NoDup_cons in Hnd as [Hk Hnd].
    unfold after at 2. rewrite run_add.
    assert (stored k c = None) as Hs.
    { apply stored_None, Hnew, list_elem_of_here. }
    rewrite Hs. cbn [fst snd]. rewrite inserted_unbounded by done.
    rewrite IH; simpl; [|done|done|].
    + by rewrite reverse_cons, <-app_assoc.
    + intros key Hkey. unfold key_list. simpl. rewrite not_elem_of_cons.
      split; [by intros ->|]. by apply Hnew, list_elem_of_further.
Qed.
End Steps.

(** * Properties of the public interface *)

Section Claims.
Context {Key Value : Type} `{EqDecision Key}.
Context {Exn World : Type}.
Implicit Types (key : Key) (value : Value) (w : World).
Implicit Types (c : Cache Key Value) (s : state Key Value World).
Implicit Types (func : Generator Key Value Exn World).
Implicit Types (op : method Key Value Exn World).
Implicit Types (ops : list (method Key Value Exn World)).

(** C1.  Whatever state a cache object is in, after each call of a
    sequence of [add] and [operator()] calls, [size() <= capacity()] if
    [capacity() > 0].  With [capacity() == 0] the cache is unbounded:
    no call of the sequence evicts (the capacity stays 0, every key
    stays, the size does not drop), and adding [N] distinct new keys
    puts all of them in front of the others, so that the size grows by
    [N]: from an empty cache, [size() == N]. *)
Theorem C1_capacity_bound s ops :
  reachable Exn s →
  Forall (λ op, inserting op = true) ops →
  each_call (λ _ s',
    0 < cache_capacity s'.1 → cache_size s'.1 ≤ cache_capacity s'.1) ops s
  ∧ (cache_capacity s.1 = 0 →
     each_call (λ s0 s',
       cache_capacity s'.1 = 0 ∧ key_list s0.1 ⊆ key_list s'.1
       ∧ cache_size s0.1 ≤ cache_size s'.1) ops s
     ∧ ∀ entries : list (Element Key Value),
         NoDup entries.*1 →
         (∀ key, key ∈ entries.*1 → key ∉ key_list s.1) →
         let s' := run (Exn := Exn) (map (λ e, Add e.1 e.2) entries) s in
         key_list s'.1 = reverse entries.*1 ++ key_list s.1
         ∧ cache_size s'.1 = cache_size s.1 + length entries
         ∧ (cache_size s.1 = 0 → cache_size s'.1 = length entries)).
Proof.
  intros Hs Hops. split; [|intros Hcap; split].
  - apply (each_call_invariant (λ s, bounded s.1) _
             (λ op, inserting op = true)); [|done|exact (reachable_bounded s Hs)].
    intros op [c w] _ Hc.
    assert (bounded (after (perform op) (c, w)).1) as Hc'; [|done].
    eapply cache_step_bounded; [apply perform_step|done].
  - apply (each_call_invariant (λ s, cache_capacity s.1 = 0) _
             (λ op, inserting op = true)); [|done|done].
    intros op s0 Hop Hcap0.
    by destruct (inserting_unbounded op s0 Hop Hcap0) as (? & ? & ?).
  - intros entries Hnd Hnew. cbn zeta.
    unfold key_list, cache_size.
    rewrite (add_all_unbounded entries s Hcap Hnd Hnew).
    rewrite fmap_app, fmap_reverse, length_app, length_reverse.
    split; [done|]. split; lia.
Qed.

(** C2.  [operator()] with a key and a generator.  If the key is present
    it returns the cached value, promotes the entry and does not invoke
    the generator.  If the key is absent it invokes the generator once;
    when the generator returns, the value is linked as a new element at
    the head, the cache is trimmed and the value is returned, and a
    second call with the same key returns the same value without
    another invocation; when the generator throws, the exception
    propagates and the cache is as it was.  Invocations are counted by
    [counting]. *)
Theorem C2_get_or_compute key func c (n : nat) w :
  let first := operator_call key (counting func) (c, (n, w)) in
  (∀ value, stored key c = Some value →
     first = (Returned value, (promoted key c, (n, w))))
  ∧ (∀ value w', stored key c = None → func key w = (inl value, w') →
       first = (Returned value, (inserted key value c, (S n, w')))
       ∧ inserted key value c
         = trimmed (set_container c ((key, value) :: _container c))
       ∧ head (key_list (inserted key value c)) = Some key
       ∧ operator_call key (counting func) first.2
         = (Returned value, (inserted key value c, (S n, w'))))
  ∧ (∀ e w', stored key c = None → func key w = (inr e, w') →
       first = (Thrown (GeneratorError e), (c, (S n, w')))).
Proof.
  cbn zeta. rewrite run_operator_call. split; [|split].
  - by intros value ->.
  - intros value w' Hs Hf.
    assert (counting func key (n, w) = (inl value, (S n, w'))) as ->.
    { unfold counting. simpl. by rewrite Hf. }
    rewrite Hs. split; [done|]. split; [|split].
    + unfold inserted, emplace_front. unfold stored in Hs.
      by apply fmap_None in Hs as ->.
    + unfold key_list. by rewrite (container_inserted _ _ _ Hs).
    + cbn [snd]. rewrite run_operator_call.
      by rewrite (stored_inserted _ _ _ Hs), (promoted_inserted _ _ _ Hs).
  - intros e w' Hs Hf.
    assert (counting func key (n, w) = (inr e, (S n, w'))) as ->.
    { unfold counting. simpl. by rewrite Hf. }
    by rewrite Hs.
Qed.

(** C9.  A newly inserted entry survives the trim of its own insertion:
    with [capacity() >= 1], right after [add] of an absent key, or after
    [operator()] on an absent key whose generator returns, the key is in
    the cache and is the first of [keys()]. *)
Theorem C9_fresh_entry_survives key value func c w :
  1 ≤ cache_capacity c → stored key c = None →
  (let c' := (after (Exn := Exn) (add key value) (c, w)).1 in
   head (key_list c') = Some key ∧ key ∈ key_list c'
   ∧ stored key c' = Some value)
  ∧ (∀ w', func key w = (inl value, w') →
     let c' := (after (operator_call key func) (c, w)).1 in
     head (key_list c') = Some key ∧ key ∈ key_list c'
     ∧ stored key c' = Some value).
Proof.
  intros _ Hs.
  assert (head (key_list (inserted key value c)) = Some key
          ∧ key ∈ key_list (inserted key value c)
          ∧ stored key (inserted key value c) = Some value) as Hnew.
  { unfold key_list. rewrite (stored_inserted _ _ _ Hs).
    rewrite (container_inserted _ _ _ Hs). simpl.
    split; [done|]. split; [apply list_elem_of_here|done]. }
  split.
  - cbn zeta. unfold after. rewrite run_add, Hs. done.
  - intros w' Hf. cbn zeta. unfold after.
    rewrite run_operator_call, Hs, Hf. done.
Qed.

(** C3.  Any access promotes to the head, and eviction removes the tail.
    A call that looks up a stored key moves its element to the head and
    keeps the order of the others; [_trim] keeps the first [capacity()]
    elements.  With capacity 2: adding A, B, C leaves [keys() == [C, B]]
    and [size() == 2]; adding A, B gives [[B, A]], then [operator[]] on A
    gives [[A, B]], then adding C evicts B and gives [[C, A]]. *)
Theorem C3_lru_order (vA vB vC : Value) w :
  (∀ op key c e,
     accessed_key op = Some key →
     hash_find key (_container c) = Some e →
     ∃ l1 l2 : Container Key Value,
       _container c = l1 ++ e :: l2 ∧ (key ∉ l1.*1)
       ∧ _container (after (Exn := Exn) (perform op) (c, w)).1
         = e :: (l1 ++ l2))
  ∧ (∀ c,
       _container (after (Exn := Exn) _trim (c, w)).1
       = if decide (cache_capacity c = 0) then _container c
         else take (cache_capacity c) (_container c))
  ∧ (let s := run (Exn := Exn) [Add "A" vA; Add "B" vB; Add "C" vC]
                (new_Cache 2, w) in
     result_of (Exn := Exn) keys s = Returned ["C"; "B"]
     ∧ result_of (Exn := Exn) size s = Returned 2)
  ∧ (let s1 := run (Exn := Exn) [Add "A" vA; Add "B" vB] (new_Cache 2, w) in
     let s2 := after (Exn := Exn) (operator_index "A") s1 in
     let s3 := after (Exn := Exn) (add "C" vC) s2 in
     result_of (Exn := Exn) keys s1 = Returned ["B"; "A"]
     ∧ result_of (Exn := Exn) (operator_index "A") s1 = Returned vA
     ∧ result_of (Exn := Exn) keys s2 = Returned ["A"; "B"]
     ∧ result_of (Exn := Exn) keys s3 = Returned ["C"; "A"]).
Proof.
  split; [|split; [|split]].
  - intros op key c e Hop He.
    rewrite (perform_access_present op key c w Hop).
    + by apply promoted_split.
    + unfold stored. rewrite He. by eexists.
  - intros c. unfold after. rewrite run_trim. unfold trimmed, cache_capacity.
    by destruct (decide (_maxElements c = 0)).
  - done.
  - done.
Qed.

(** C4.  [add] on a key that is present promotes the entry to the head,
    leaves every stored value as it is (the argument is dropped) and
    keeps the size; on an absent key it links a new element at the head
    and trims.  After [add(K, V1)] on an absent key, [add(K, V2)] leaves
    [V1] stored under [K], and changes neither the cache nor its
    size. *)
Theorem C4_add_first_value_wins key (V1 V2 : Value) c w :
  (∀ v0, stored key c = Some v0 →
     let s' := after (Exn := Exn) (add key V2) (c, w) in
     add (Exn := Exn) key V2 (c, w) = (Returned (), (promoted key c, w))
     ∧ head (key_list s'.1) = Some key
     ∧ (∀ k, stored k s'.1 = stored k c)
     ∧ cache_size s'.1 = cache_size c)
  ∧ (stored key c = None →
     add (Exn := Exn) key V1 (c, w)
     = (Returned (),
        (trimmed (set_container c ((key, V1) :: _container c)), w))
     ∧ let s1 := after (Exn := Exn) (add key V1) (c, w) in
       let s2 := after (Exn := Exn) (add key V2) s1 in
       stored key s1.1 = Some V1 ∧ stored key s2.1 = Some V1
       ∧ result_of (Exn := Exn) (get key) s2 = Returned (Some V1)
       ∧ s2 = s1 ∧ cache_size s2.1 = cache_size s1.1).
Proof.
  split.
  - intros v0 Hs. cbn zeta. unfold after. rewrite run_add, Hs. cbn [fst snd].
    split; [done|]. split; [|split].
    + unfold stored in Hs. apply fmap_Some in Hs as ([k v] & He & ->).
      destruct (promoted_split _ _ _ He) as (l1 & l2 & _ & _ & Hp).
      unfold key_list. rewrite Hp.
      destruct (hash_find_Some _ _ _ He) as [Hk _]. by rewrite <-Hk.
    + intros k. apply stored_promoted.
    + apply size_promoted.
  - intros Hs. cbn zeta. unfold after, result_of.
    rewrite run_add, Hs. cbn [fst snd].
    rewrite run_add, (stored_inserted _ _ _ Hs). cbn [fst snd].
    rewrite run_get, (promoted_inserted _ _ _ Hs).
    rewrite (stored_inserted _ _ _ Hs).
    split; [|done].
    unfold inserted, emplace_front. unfold stored in Hs.
    by apply fmap_None in Hs as ->.
Qed.

(** C5.  [operator[]] throws [NotFoundError] exactly when the key is
    absent, and the cache is then as it was; on a present key it
    promotes and returns the value.  [get], [contains] and [operator()]
    never throw [NotFoundError]: [get] returns the stored value if there
    is one and an empty optional otherwise, [contains] returns whether
    the key is stored, and [operator()] returns or lets the exception of
    the generator through. *)
Theorem C5_not_found key func c w :
  (result_of (Exn := Exn) (operator_index key) (c, w)
     = Thrown (NotFoundError key) ↔ key ∉ key_list c)
  ∧ (∀ x, result_of (Exn := Exn) (operator_index key) (c, w) = Thrown x →
       x = NotFoundError key ∧ key ∉ key_list c)
  ∧ (key ∉ key_list c →
       operator_index (Exn := Exn) key (c, w)
       = (Thrown (NotFoundError key), (c, w)))
  ∧ (∀ value, stored key c = Some value →
       operator_index (Exn := Exn) key (c, w)
       = (Returned value, (promoted key c, w)))
  ∧ result_of (Exn := Exn) (get key) (c, w) = Returned (stored key c)
  ∧ (key ∉ key_list c →
       result_of (Exn := Exn) (get key) (c, w) = Returned None)
  ∧ result_of (Exn := Exn) (contains key) (c, w)
    = Returned (bool_decide (key ∈ key_list c))
  ∧ (key ∉ key_list c →
       result_of (Exn := Exn) (contains key) (c, w) = Returned false)
  ∧ (∀ k, result_of (operator_call key func) (c, w)
          ≠ Thrown (NotFoundError k))
  ∧ (∀ x, result_of (operator_call key func) (c, w) = Thrown x →
       ∃ e, (func key w).1 = inr e ∧ x = GeneratorError e).
Proof.
  unfold result_of.
  rewrite run_operator_index, run_get, run_contains, run_operator_call.
  rewrite <-stored_None.
  destruct (stored key c) as [v|] eqn:Hs; cbn [fst snd]; split_and!;
    try done.
  - by intros value [= ->].
  - intros x [= <-]. split; [done|]. by apply stored_None.
  - intros _. f_equal. by apply bool_decide_eq_false_2, stored_None.
  - intros k. by destruct (func key w) as [[value|e] w'].
  - intros x. destruct (func key w) as [[value|e] w']; [done|].
    intros [= <-]. by exists e.
Qed.

(** C6.  [reserve(n)] sets the capacity to [n] and then evicts from the
    tail until [size() <= n]: it keeps the first [n] elements, and all
    of them when [n == 0].  With keys [[A, B, C, D]], most recent first,
    and capacity 4, [reserve(2)] leaves [keys() == [A, B]]. *)
Theorem C6_reserve (n : nat) c w :
  (let c' := (after (Exn := Exn) (reserve n) (c, w)).1 in
   reserve (Exn := Exn) n (c, w) = (Returned (), (c', w))
   ∧ cache_capacity c' = n
   ∧ _container c'
     = (if decide (n = 0) then _container c else take n (_container c))
   ∧ (0 < n → cache_size c' = cache_size c `min` n)
   ∧ (n = 0 → _container c' = _container c))
  ∧ (∀ c4 : Cache string Value,
       cache_capacity c4 = 4 → key_list c4 = ["A"; "B"; "C"; "D"] →
       let s' := after (Exn := Exn) (reserve 2) (c4, w) in
       result_of (Exn := Exn) keys s' = Returned ["A"; "B"]
       ∧ result_of (Exn := Exn) capacity s' = Returned 2).
Proof.
  split.
  - cbn zeta. unfold after. rewrite run_reserve. cbn [fst snd].
    unfold trimmed, set_maxElements, cache_capacity, cache_size. simpl.
    destruct (decide (n = 0)) as [->|Hn]; simpl.
    + split_and!; try done. lia.
    + split_and!; try done. intros _. rewrite length_take. lia.
  - intros c4 Hcap Hkeys. cbn zeta. unfold after, result_of.
    rewrite run_reserve. cbn [fst snd]. rewrite run_keys, run_capacity.
    unfold key_list in *. destruct c4 as [m l]. simpl in *.
    destruct l as [|a [|b [|? [|? [|? ?]]]]]; try done.
    csimpl in *. injection Hkeys as Ha Hb _ _. by rewrite Ha, Hb.
Qed.

(** C7.  [flush()] removes all entries and leaves the capacity: after
    it [size() == 0], and [operator[]] fails with [NotFoundError] on any
    key, so also on the keys that were present. *)
Theorem C7_flush key c w :
  let s' := after (Exn := Exn) flush (c, w) in
  flush (Exn := Exn) (c, w) = (Returned (), s')
  ∧ s' = (set_container c [], w)
  ∧ result_of (Exn := Exn) capacity s' = Returned (cache_capacity c)
  ∧ result_of (Exn := Exn) size s' = Returned 0
  ∧ result_of (Exn := Exn) keys s' = Returned []
  ∧ operator_index (Exn := Exn) key s' = (Thrown (NotFoundError key), s').
Proof.
  cbn zeta. unfold after, result_of. rewrite run_flush. cbn [fst snd].
  by rewrite run_operator_index.
Qed.

(** C8.  [keys()] returns the keys of all elements in sequence order,
    most recently used first, and does not change the cache: the state
    after the call is the state before it, and the returned sequence has
    [size()] keys. *)
Theorem C8_keys c w :
  keys (Exn := Exn) (c, w) = (Returned (_container c).*1, (c, w))
  ∧ result_of (Exn := Exn) size (c, w)
    = Returned (length (_container c).*1).
Proof.
  rewrite run_keys. unfold result_of. rewrite run_size.
  by rewrite length_fmap.
Qed.

(** C10.  Promotion is idempotent: after one access to a stored key
    ([contains], [get], [operator[]], [operator()], and [add] as well),
    a second access to the same key changes nothing, and an access to
    the key at the head changes nothing either. *)
Theorem C10_promotion_idempotent op1 op2 key c w :
  accessed_key op1 = Some key → accessed_key op2 = Some key →
  key ∈ key_list c →
  after (perform op2) (after (perform op1) (c, w))
  = after (perform op1) (c, w)
  ∧ (head (key_list c) = Some key → after (perform op1) (c, w) = (c, w)).
Proof.
  intros Hop1 Hop2 Hkey.
  assert (is_Some (stored key c)) as Hs.
  { apply not_eq_None_Some. by intros Hn%stored_None. }
  rewrite (perform_access_present op1 key c w Hop1 Hs). split.
  - rewrite (perform_access_present op2 key _ w Hop2).
    + by rewrite promoted_promoted.
    + by rewrite stored_promoted.
  - unfold key_list. destruct (_container c) as [|e l] eqn:Hc; [done|].
    intros [= Hk]. by rewrite (promoted_head key c e l).
Qed.
End Claims.

(** * Instances on sample data *)

Lemma C1_capacity_bound_witness :
  let s2 : state string nat unit :=
    run (Exn := unit) [Add "A" 1; Add "B" 2] (new_Cache 2, ()) in
  let s0 : state string nat unit := (new_Cache 0, ()) in
  let ops := [Add "C" 3; Call "D" length_of; Call "E" failing] in
  let entries := [("A", 1); ("B", 2); ("C", 3)] in
  (reachable unit s2 ∧ Forall (λ op, inserting op = true) ops
   ∧ each_call (λ _ s',
       0 < cache_capacity s'.1 → cache_size s'.1 ≤ cache_capacity s'.1)
       ops s2)
  ∧ (reachable unit s0 ∧ cache_capacity s0.1 = 0
     ∧ NoDup entries.*1 ∧ (∀ key, key ∈ entries.*1 → key ∉ key_list s0.1)
     ∧ each_call (λ s s',
         cache_capacity s'.1 = 0 ∧ key_list s.1 ⊆ key_list s'.1
         ∧ cache_size s.1 ≤ cache_size s'.1) ops s0
     ∧ cache_size
         (run (Exn := unit) (map (λ e, Add e.1 e.2) entries) s0).1 = 3).
Proof.
  cbn zeta.
  assert (Forall (λ op : method string nat unit unit, inserting op = true)
            [Add "C" 3; Call "D" length_of; Call "E" failing]) as Hops.
  { repeat constructor. }
  assert (reachable unit
            (run (Exn := unit) [Add "A" 1; Add "B" 2]
               (new_Cache 2, ()))) as Hs2.
  { by exists 2, (), [Add "A" 1; Add "B" 2]. }
  assert (reachable unit (new_Cache (Key := string) (Value := nat) 0, ()))
    as Hs0.
  { by exists 0, (), []. }
  assert (NoDup [("A", 1); ("B", 2); ("C", 3)].*1) as Hnd.
  { vm_compute. repeat constructor; rewrite ?list_elem_of_In; simpl;
      intuition discriminate. }
  assert (∀ key : string, key ∈ [("A", 1); ("B", 2); ("C", 3)].*1 →
            key ∉ key_list (Value := nat) (new_Cache 0)) as Hnew.
  { intros key _. apply not_elem_of_nil. }
  split.
  - split; [exact Hs2|]. split; [exact Hops|].
    exact (proj1 (C1_capacity_bound _ _ Hs2 Hops)).
  - split; [exact Hs0|]. split; [reflexivity|].
    split; [exact Hnd|]. split; [exact Hnew|].
    destruct (proj2 (C1_capacity_bound _ _ Hs0 Hops) eq_refl) as [Hkeep Hadd].
    split; [exact Hkeep|].
    exact (proj2 (proj2 (Hadd _ Hnd Hnew)) eq_refl).
Defined.

Lemma C2_get_or_compute_witness :
  (stored "K" cache_JK = Some 5
   ∧ operator_call "K" (counting length_of) (cache_JK, (0, ()))
     = (Returned 5, (mkCache 2 [("K", 5); ("J", 1)], (0, ()))))
  ∧ (stored "K" cache_J = None ∧ length_of "K" () = (inl 1, ())
     ∧ operator_call "K" (counting length_of) (cache_J, (0, ()))
       = (Returned 1, (mkCache 1 [("K", 1)], (1, ())))
     ∧ operator_call "K" (counting length_of)
         (mkCache 1 [("K", 1)], (1, ()))
       = (Returned 1, (mkCache 1 [("K", 1)], (1, ()))))
  ∧ (stored "K" cache_J = None ∧ failing "K" () = (inr (), ())
     ∧ operator_call "K" (counting failing) (cache_J, (0, ()))
       = (Thrown (GeneratorError ()), (cache_J, (1, ())))).
Proof.
  assert (stored "K" cache_JK = Some 5) as Hhit by reflexivity.
  assert (stored "K" cache_J = None) as Hmiss by reflexivity.
  assert (length_of "K" () = (inl 1, ())) as Hreturns by reflexivity.
  assert (failing "K" () = (inr (), ())) as Hthrows by reflexivity.
  split; [|split].
  - split; [exact Hhit|].
    exact (proj1 (C2_get_or_compute "K" length_of cache_JK 0 ()) 5 Hhit).
  - split; [exact Hmiss|]. split; [exact Hreturns|].
    destruct (proj1 (proj2 (C2_get_or_compute "K" length_of cache_J 0 ()))
                1 () Hmiss Hreturns) as (Hfirst & _ & _ & Hsecond).
    split; [exact Hfirst|]. rewrite Hfirst in Hsecond. exact Hsecond.
  - split; [exact Hmiss|]. split; [exact Hthrows|].
    exact (proj2 (proj2 (C2_get_or_compute "K" failing cache_J 0 ()))
             () () Hmiss Hthrows).
Defined.

Lemma C3_lru_order_witness :
  accessed_key (Contains (Value := nat) (Exn := unit) (World := unit) "K")
    = Some "K"
  ∧ hash_find "K" (_container cache_JK) = Some ("K", 5)
  ∧ ∃ l1 l2 : Container string nat,
      _container cache_JK = l1 ++ ("K", 5) :: l2 ∧ ("K" ∉ l1.*1)
      ∧ _container
          (after (Exn := unit) (perform (Contains "K")) (cache_JK, ())).1
        = ("K", 5) :: (l1 ++ l2).
Proof.
  split; [reflexivity|]. split; [reflexivity|].
  exact (proj1 (C3_lru_order (Exn := unit) 1 2 3 ())
           (Contains "K") "K" cache_JK ("K", 5) eq_refl eq_refl).
Defined.

Lemma C4_add_first_value_wins_witness :
  (stored "K" cache_JK = Some 5
   ∧ add (Exn := unit) "K" 9 (cache_JK, ())
     = (Returned (), (mkCache 2 [("K", 5); ("J", 1)], ())))
  ∧ (stored "K" cache_J = None
     ∧ stored "K"
         (after (Exn := unit) (add "K" 9)
            (after (Exn := unit) (add "K" 8) (cache_J, ()))).1
       = Some 8).
Proof.
  split.
  - split; [reflexivity|].
    exact (proj1 (proj1 (C4_add_first_value_wins (Exn := unit)
                           "K" 8 9 cache_JK ()) 5 eq_refl)).
  - assert (stored "K" cache_J = None) as Hmiss by reflexivity.
    split; [exact Hmiss|].
    destruct (proj2 (C4_add_first_value_wins (Exn := unit)
                       "K" 8 9 cache_J ()) Hmiss) as (_ & _ & Hs2 & _).
    exact Hs2.
Defined.

Lemma C5_not_found_witness :
  (("K" ∉ key_list cache_J)
   ∧ operator_index (Exn := unit) "K" (cache_J, ())
     = (Thrown (NotFoundError "K"), (cache_J, ()))
   ∧ result_of (Exn := unit) (get "K") (cache_J, ()) = Returned None
   ∧ result_of (Exn := unit) (contains "K") (cache_J, ()) = Returned false)
  ∧ (stored "K" cache_JK = Some 5
     ∧ operator_index (Exn := unit) "K" (cache_JK, ())
       = (Returned 5, (mkCache 2 [("K", 5); ("J", 1)], ()))).
Proof.
  assert ("K" ∉ key_list cache_J) as Habsent.
  { apply stored_None. reflexivity. }
  destruct (C5_not_found "K" length_of cache_J ())
    as (_ & _ & Hindex & _ & _ & Hget & _ & Hcontains & _).
  destruct (C5_not_found "K" length_of cache_JK ())
    as (_ & _ & _ & Hpresent & _).
  split.
  - split; [exact Habsent|]. split; [exact (Hindex Habsent)|].
    split; [exact (Hget Habsent)|exact (Hcontains Habsent)].
  - split; [reflexivity|]. exact (Hpresent 5 eq_refl).
Defined.

Lemma C6_reserve_witness :
  let c4 : Cache string nat :=
    (run (Exn := unit) [Add "D" 4; Add "C" 3; Add "B" 2; Add "A" 1]
       (new_Cache 4, ())).1 in
  cache_capacity c4 = 4 ∧ key_list c4 = ["A"; "B"; "C"; "D"]
  ∧ result_of (Exn := unit) keys (after (Exn := unit) (reserve 2) (c4, ()))
    = Returned ["A"; "B"]
  ∧ (0 < 1 ∧ cache_size (after (Exn := unit) (reserve 1) (cache_JK, ())).1
             = cache_size cache_JK `min` 1)
  ∧ _container (after (Exn := unit) (reserve 0) (cache_JK, ())).1
    = _container cache_JK.
Proof.
  intros c4.
  assert (cache_capacity c4 = 4) as Hcap by reflexivity.
  assert (key_list c4 = ["A"; "B"; "C"; "D"]) as Hkeys by reflexivity.
  split; [exact Hcap|]. split; [exact Hkeys|]. split; [|split].
  - exact (proj1 (proj2 (C6_reserve (Exn := unit) 2 cache_JK ())
                    c4 Hcap Hkeys)).
  - split; [lia|].
    destruct (proj1 (C6_reserve (Exn := unit) 1 cache_JK ()))
      as (_ & _ & _ & Hsize & _).
    apply Hsize. lia.
  - destruct (proj1 (C6_reserve (Exn := unit) 0 cache_JK ()))
      as (_ & _ & _ & _ & Hsame).
    exact (Hsame eq_refl).
Defined.

Lemma C9_fresh_entry_survives_witness :
  1 ≤ cache_capacity cache_J ∧ stored "K" cache_J = None
  ∧ key_list (after (Exn := unit) (add "K" 7) (cache_J, ())).1 = ["K"]
  ∧ length_of "K" () = (inl 1, ())
  ∧ head (key_list (after (operator_call "K" length_of) (cache_J, ())).1)
    = Some "K".
Proof.
  assert (1 ≤ cache_capacity cache_J) as Hcap by (vm_compute; lia).
  assert (stored "K" cache_J = None) as Hmiss by reflexivity.
  destruct (C9_fresh_entry_survives "K" 1 length_of cache_J () Hcap Hmiss)
    as [_ Hcall].
  split; [exact Hcap|]. split; [exact Hmiss|]. split; [reflexivity|].
  split; [reflexivity|]. exact (proj1 (Hcall () eq_refl)).
Defined.

Lemma C10_promotion_idempotent_witness :
  let op1 : method string nat unit unit := Contains "K" in
  let op2 : method string nat unit unit := Call "K" failing in
  accessed_key op1 = Some "K" ∧ accessed_key op2 = Some "K"
  ∧ "K" ∈ key_list cache_JK
  ∧ after (perform op2) (after (perform op1) (cache_JK, ()))
    = after (perform op1) (cache_JK, ())
  ∧ (head (key_list cache_JK) = Some "J"
     ∧ after (perform (Get "J" : method string nat unit unit)) (cache_JK, ())
       = (cache_JK, ())).
Proof.
  cbn zeta.
  assert ("K" ∈ key_list cache_JK) as HK.
  { apply list_elem_of_further, list_elem_of_here. }
  assert ("J" ∈ key_list cache_JK) as HJ.
  { apply list_elem_of_here. }
  split; [reflexivity|]. split; [reflexivity|]. split; [exact HK|].
  split.
  - exact (proj1 (C10_promotion_idempotent (Contains "K") (Call "K" failing)
                    "K" cache_JK () eq_refl eq_refl HK)).
  - split; [reflexivity|].
    exact (proj2 (C10_promotion_idempotent (Get "J") (Get "J")
                    "J" cache_JK () eq_refl eq_refl HJ) eq_refl).
Defined.

(** * More properties of the cache *)

Section CacheMore.
Context {Key Value : Type} `{EqDecision Key}.
Context {Exn World : Type}.
Implicit Types (key k : Key) (value v : Value) (w : World).
Implicit Types (l : Container Key Value).
Implicit Types (c : Cache Key Value) (s : state Key Value World).
Implicit Types (func : Generator Key Value Exn World).
Implicit Types (op : method Key Value Exn World).
Implicit Types (ops : list (method Key Value Exn World)).






Lemma after_add key value c w :
  after (Exn := Exn) (add key value) (c, w)
  = (match stored key c with
     | Some _ => promoted key c
     | None => inserted key value c
     end, w).
Proof. unfold after. by rewrite run_add. Qed.

Lemma after_discard {A} (m : M Key Value Exn World A) s :
  after (discard m) s = after m s.
Proof.
  unfold after, discard, bind, ret. by destruct (m s) as [[a|x|] s'].
Qed.

Lemma stored_head key c :
  is_Some (stored key c) → head (key_list (promoted key c)) = Some key.
Proof.
  unfold stored. intros [v ([k v'] & He & _)%fmap_Some].
  destruct (promoted_split _ _ _ He) as (l1 & l2 & _ & _ & Hp).
  unfold key_list. rewrite Hp.
  destruct (hash_find_Some _ _ _ He) as [Hk _]. by rewrite <-Hk.
Qed.

(** X1.  Keys are unique: in every state of a cache object [keys()]
    returns a sequence without duplicates. *)
Theorem X1_keys_unique s :
  reachable Exn s →
  ∃ ks, keys (Exn := Exn) s = (Returned ks, s) ∧ NoDup ks.
Proof.
  intros Hs. destruct s as [c w]. exists (key_list c).
  split; [apply run_keys|]. exact (reachable_NoDup (c, w) Hs).
Qed.


(** X3.  A full cache evicts the least recently used entry.  When [add]
    links a new key into a cache with a capacity, nothing is evicted
    while there is room; in a full cache the new element goes to the head,
    exactly the last element of the sequence is dropped, and its key is
    not stored any more. *)
Theorem X3_full_cache_evicts_least_recent key value c w :
  reachable Exn (c, w) → stored key c = None → 0 < cache_capacity c →
  let c' := (after (Exn := Exn) (add key value) (c, w)).1 in
  (cache_size c < cache_capacity c →
     _container c' = (key, value) :: _container c)
  ∧ (cache_size c = cache_capacity c →
       _container c' = (key, value) :: pop_back (_container c)
       ∧ ∀ e, last (_container c) = Some e →
           _container c = pop_back (_container c) ++ [e]
           ∧ stored e.1 c' = None).
Proof.
  intros Hreach Hs Hcap. cbn zeta. rewrite after_add, Hs. cbn [fst].
  rewrite (container_inserted _ _ _ Hs).
  rewrite decide_False by lia. unfold cache_size. split.
  - intros Hroom. by rewrite take_ge by lia.
  - intros Hfull. rewrite pop_back_take.
    replace (pred (length (_container c))) with (cache_capacity c - 1) by lia.
    split; [done|]. intros e [l' Hl']%last_Some.
    assert (take (cache_capacity c - 1) (_container c) = l') as ->.
    { rewrite Hl', length_app in *. simpl in *.
      rewrite take_app_le by lia. apply take_ge. lia. }
    split; [done|].
    pose proof (reachable_NoDup (c, w) Hreach) as Hnd.
    unfold key_list in Hnd. cbn [fst] in Hnd.
    rewrite Hl', fmap_app in Hnd. apply NoDup_app in Hnd as (_ & Hnd & _).
    apply stored_None. unfold key_list at 1.
    rewrite (container_inserted _ _ _ Hs).
    rewrite decide_False by lia.
    assert (take (cache_capacity c - 1) (_container c) = l') as ->.
    { rewrite Hl', length_app in *. simpl in *.
      rewrite take_app_le by lia. apply take_ge. lia. }
    apply stored_None in Hs. unfold key_list in Hs.
    rewrite Hl', fmap_app in Hs. simpl.
    rewrite not_elem_of_cons. split.
    + intros He. apply Hs. rewrite elem_of_app. right. rewrite <-He.
      apply list_elem_of_here.
    + intros He. apply (Hnd _ He). apply list_elem_of_here.
Qed.

(** X4.  What [add] puts in, the lookups find: right after
    [add(key, value)], in any state and with any capacity, the key is the
    first of [keys()], [contains] returns true, and [operator[]] returns
    the value that was stored under the key already, or [value] if there
    was none. *)
Theorem X4_add_then_lookup key value c w :
  let s' := after (Exn := Exn) (add key value) (c, w) in
  head (key_list s'.1) = Some key
  ∧ result_of (Exn := Exn) (contains key) s' = Returned true
  ∧ result_of (Exn := Exn) (operator_index key) s'
    = Returned (default value (stored key c))
  ∧ result_of (Exn := Exn) (get key) s'
    = Returned (Some (default value (stored key c))).
Proof.
  cbn zeta. rewrite after_add. unfold result_of.
  rewrite run_contains, run_operator_index, run_get. cbn [fst snd].
  destruct (stored key c) as [v0|] eqn:Hs.
  - rewrite stored_promoted, Hs. cbn [fst default].
    assert (head (key_list (promoted key c)) = Some key) as Hhead.
    { apply stored_head. by rewrite Hs. }
    split; [done|]. split; [|done]. f_equal. apply bool_decide_eq_true_2.
    destruct (key_list (promoted key c)) as [|k ks]; [done|].
    injection Hhead as ->. apply list_elem_of_here.
  - rewrite (stored_inserted _ _ _ Hs). cbn [fst default].
    unfold key_list. rewrite (container_inserted _ _ _ Hs). simpl.
    split; [done|]. split; [|done]. f_equal. apply bool_decide_eq_true_2.
    apply list_elem_of_here.
Qed.

(** X5.  [operator()] is [add] of the generated value: when the generator
    returns [v] for the key, [operator()(key, func)] leaves the cache as
    [add(key, v)] leaves it, and returns what [operator[]] returns after
    that [add]. *)
Theorem X5_call_is_add_of_generated key func v c w w' :
  func key w = (inl v, w') →
  (after (operator_call key func) (c, w)).1
  = (after (Exn := Exn) (add key v) (c, w)).1
  ∧ result_of (operator_call key func) (c, w)
    = result_of (Exn := Exn) (operator_index key)
        (after (Exn := Exn) (add key v) (c, w)).
Proof.
  intros Hf. rewrite after_add. unfold after, result_of.
  rewrite run_operator_call, run_operator_index. cbn [fst snd].
  destruct (stored key c) as [v0|] eqn:Hs.
  - rewrite stored_promoted, Hs. done.
  - rewrite Hf, (stored_inserted _ _ _ Hs). done.
Qed.
(** X6.  The three lookups agree: [contains], [get] and [operator[]]
    leave the same state, [contains] returns true exactly when [get] has
    a value, [get] has the value that [operator[]] returns, and
    [contains] returns false exactly when [operator[]] throws. *)
Theorem X6_lookups_agree key c w :
  after (Exn := Exn) (get key) (c, w)
  = after (Exn := Exn) (contains key) (c, w)
  ∧ after (Exn := Exn) (operator_index key) (c, w)
    = after (Exn := Exn) (contains key) (c, w)
  ∧ (result_of (Exn := Exn) (contains key) (c, w) = Returned true
     ↔ ∃ v, result_of (Exn := Exn) (get key) (c, w) = Returned (Some v))
  ∧ (∀ v, result_of (Exn := Exn) (get key) (c, w) = Returned (Some v)
          ↔ result_of (Exn := Exn) (operator_index key) (c, w) = Returned v)
  ∧ (result_of (Exn := Exn) (contains key) (c, w) = Returned false
     ↔ result_of (Exn := Exn) (operator_index key) (c, w)
       = Thrown (NotFoundError key)).
Proof.
  unfold after, result_of.
  rewrite run_get, run_contains, run_operator_index. cbn [fst snd].
  destruct (stored key c) as [v0|] eqn:Hs; cbn [fst snd].
  - assert (bool_decide (key ∈ key_list c) = true) as ->.
    { apply bool_decide_eq_true_2.
      destruct (decide (key ∈ key_list c)) as [|Hn]; [done|].
      apply stored_None in Hn. congruence. }
    split_and!; try done.
    + split; [by exists v0|done].
    + intros v. split; by intros [= ->].
  - assert (bool_decide (key ∈ key_list c) = false) as ->.
    { by apply bool_decide_eq_false_2, stored_None. }
    rewrite promoted_absent by (by apply fmap_None in Hs).
    split_and!; try done.
    split; [done|]. by intros [v ?].
Qed.


Lemma container_promoted key c : _container (promoted key c) ≡ₚ _container c.
Proof.
  unfold promoted. simpl.
  destruct (hash_find key (_container c)) as [e|] eqn:He; simpl; [|done].
  destruct (hash_find_Some _ _ _ He) as [<- _].
  exact (unlink_Permutation _ _ _ He).
Qed.

(** X8.  Lookups and observers keep the entries: [operator[]],
    [contains], [get], [size], [keys] and [capacity] never add or remove
    an element; the container after the call is a rearrangement of the
    container before it, and the generator's world is untouched. *)
Theorem X8_lookups_keep_entries op c w :
  inserting op = false → (∀ n, op ≠ Reserve n) → op ≠ Flush →
  let s' := after (perform op) (c, w) in
  _container s'.1 ≡ₚ _container c ∧ cache_size s'.1 = cache_size c
  ∧ s'.2 = w.
Proof.
  intros Hins Hres Hflush. cbn zeta.
  assert (∀ c' : Cache Key Value, _container c' ≡ₚ _container c →
            _container c' ≡ₚ _container c ∧ cache_size c' = cache_size c
            ∧ w = w)
    as Hperm.
  { intros c' Hc'. split; [done|]. unfold cache_size. by rewrite Hc'. }
  destruct op as [key func|key|key value| | |key|key| |n|]; try done;
    cbn [perform]; rewrite ?after_discard; unfold after.
  - rewrite run_operator_index.
    destruct (stored key c); cbn [fst snd]; apply Hperm;
      [apply container_promoted|done].
  - rewrite run_contains. apply Hperm, container_promoted.
  - rewrite run_get. apply Hperm, container_promoted.
  - by destruct (Hres n).
Qed.



Lemma trimmed_bounded c : bounded c → trimmed c = c.
Proof.
  unfold bounded, trimmed, cache_capacity, cache_size. intros Hc.
  destruct (decide (_maxElements c = 0)); [done|].
  rewrite take_ge by lia. apply set_container_same.
Qed.

(** X10.  [reserve] composes: two reserves with capacities [n] and [m],
    both positive, keep the first [min n m] elements, so that growing the
    capacity does not bring back what a smaller capacity evicted; a
    reserve to 0 or to at least [size()] evicts nothing; and reserving the
    capacity a cache object already has changes nothing. *)
Theorem X10_reserve_compose n m c w :
  let s1 := after (Exn := Exn) (reserve n) (c, w) in
  let s2 := after (Exn := Exn) (reserve m) s1 in
  (0 < n → 0 < m → _container s2.1 = take (n `min` m) (_container c))
  ∧ (n = 0 ∨ cache_size c ≤ n → _container s1.1 = _container c)
  ∧ (reachable Exn (c, w) →
     after (Exn := Exn) (reserve (cache_capacity c)) (c, w) = (c, w)).
Proof.
  cbn zeta. unfold after. rewrite !run_reserve. cbn [fst snd].
  rewrite run_reserve. cbn [fst snd]. split_and!.
  - intros Hn Hm. unfold trimmed, set_maxElements. simpl.
    rewrite decide_False by lia. simpl. rewrite decide_False by lia. simpl.
    rewrite take_take. f_equal. lia.
  - unfold trimmed, set_maxElements, cache_size. simpl.
    intros [->|Hn]; [done|].
    destruct (decide (n = 0)); [done|]. simpl. by rewrite take_ge.
  - intros Hreach. f_equal.
    assert (set_maxElements c (cache_capacity c) = c) as ->.
    { by destruct c. }
    apply trimmed_bounded. exact (reachable_bounded (c, w) Hreach).
Qed.
Lemma take_app_take {A} n (a b : list A) :
  take n (a ++ take n b) = take n (a ++ b).
Proof. rewrite !take_app, take_take. do 2 f_equal. lia. Qed.

Lemma add_all_bounded (entries : list (Element Key Value)) s :
  0 < cache_capacity s.1 → bounded s.1 →
  NoDup entries.*1 → (∀ key, key ∈ entries.*1 → key ∉ key_list s.1) →
  _container (run (Exn := Exn) (map (λ e, Add e.1 e.2) entries) s).1
  = take (cache_capacity s.1) (reverse entries ++ _container s.1).
Proof.
  unfold run. revert s.
  induction entries as [|[k v] entries IH]; intros [c w] Hcap Hc Hnd Hnew.
  - simpl in *. symmetry. apply take_ge. apply Hc, Hcap.
  - simpl in *. apply NoDup_cons in Hnd as [Hk Hnd].
    rewrite after_add.
    assert (stored k c = None) as Hs.
    { apply stored_None, Hnew, list_elem_of_here. }
    rewrite Hs.
    assert (_container (inserted k v c)
            = take (cache_capacity c) ((k, v) :: _container c)) as Hins.
    { rewrite (container_inserted _ _ _ Hs). rewrite decide_False by lia.
      destruct (cache_capacity c) as [|n]; [lia|].
      simpl. by rewrite Nat.sub_0_r. }
    rewrite IH; cbn [fst].
    + rewrite capacity_inserted, Hins, take_app_take.
      by rewrite reverse_cons, <-app_assoc.
    + by rewrite capacity_inserted.
    + apply bounded_trimmed.
    + done.
    + intros key Hkey. unfold key_list. rewrite Hins, fmap_take.
      intros Hin%subseteq_take. simpl in Hin.
      apply elem_of_cons in Hin as [->|Hin]; [done|].
      by apply (Hnew key); [apply list_elem_of_further|].
Qed.

(** X11.  The cache stores the most recent [maxElements] values: after
    adding entries with distinct keys to a new cache of capacity [n], the
    cache holds the last [n] of them, most recent first, and all of them
    when [n] is 0. *)
Theorem X11_keeps_most_recent (entries : list (Element Key Value)) n w :
  NoDup entries.*1 →
  let s' := run (Exn := Exn) (map (λ e, Add e.1 e.2) entries)
              (new_Cache n, w) in
  _container s'.1
  = (if decide (n = 0) then reverse entries else take n (reverse entries))
  ∧ result_of (Exn := Exn) keys s'
    = Returned (if decide (n = 0) then reverse entries.*1
                else take n (reverse entries.*1)).
Proof.
  intros Hnd. cbn zeta.
  assert (∀ key, key ∈ entries.*1 →
            key ∉ key_list (Value := Value) (new_Cache n)) as Hnew.
  { intros key _. apply not_elem_of_nil. }
  assert (_container
            (run (Exn := Exn) (map (λ e, Add e.1 e.2) entries)
               (new_Cache n, w)).1
          = (if decide (n = 0) then reverse entries
             else take n (reverse entries))) as Hc.
  { destruct (decide (n = 0)) as [->|Hn].
    - rewrite (add_all_unbounded (Exn := Exn) entries (new_Cache 0, w));
        try done.
      apply app_nil_r.
    - rewrite (add_all_bounded entries (new_Cache n, w)); try done.
      + simpl. by rewrite app_nil_r.
      + simpl. unfold cache_capacity. simpl. lia.
      + unfold bounded, cache_size. simpl. lia. }
  split; [done|].
  destruct (run (Exn := Exn) (map (λ e, Add e.1 e.2) entries)
              (new_Cache n, w)) as [c' w'] eqn:Hrun.
  unfold result_of. rewrite run_keys. cbn [fst] in *. unfold key_list.
  rewrite Hc. destruct (decide (n = 0)).
  - by rewrite fmap_reverse.
  - by rewrite fmap_take, fmap_reverse.
Qed.

(** X12.  A lookup protects an entry from the next eviction: after any
    call that looks up a stored key, [add] of a new key leaves the
    looked-up key right behind the new one, with its value, unless the
    capacity is 1. *)
Theorem X12_lookup_survives_next_insert op k k' v v' c w :
  cache_capacity c ≠ 1 → accessed_key op = Some k →
  stored k c = Some v → stored k' c = None →
  let s1 := after (perform op) (c, w) in
  let s2 := after (Exn := Exn) (add k' v') s1 in
  (∃ rest, key_list s2.1 = k' :: k :: rest) ∧ stored k s2.1 = Some v.
Proof.
  intros Hcap Hop Hk Hk'. cbn zeta.
  rewrite (perform_access_present op k c w Hop) by (by rewrite Hk).
  rewrite after_add, stored_promoted, Hk'. cbn [fst].
  assert (stored k' (promoted k c) = None) as Hk'p.
  { by rewrite stored_promoted. }
  pose proof Hk as He. unfold stored in He.
  apply fmap_Some in He as (e & He & Hv).
  destruct (promoted_split _ _ _ He) as (l1 & l2 & _ & _ & Hp).
  destruct (hash_find_Some _ _ _ He) as [Hek _].
  assert (k' ≠ k) as Hne by congruence.
  assert (∃ tl, _container (inserted k' v' (promoted k c))
                = (k', v') :: e :: tl) as [tl Htl].
  { rewrite (container_inserted _ _ _ Hk'p), Hp.
    change (cache_capacity (promoted k c)) with (cache_capacity c).
    destruct (decide (cache_capacity c = 0)); [by eexists|].
    destruct (cache_capacity c) as [|[|m]]; [done|done|]. by eexists. }
  split.
  - exists tl.*1. unfold key_list. rewrite Htl. simpl. by rewrite Hek.
  - unfold stored. rewrite Htl. simpl.
    rewrite decide_False by done. by rewrite decide_True, Hv.
Qed.
End CacheMore.

(** * Properties of TemplateInvoker *)

Section InvokerFacts.
Context {DType : Type} `{EqDecision DType}.
Context (nb_dtype : ctype → DType).
Context {Object Result Exn : Type}.
Context (name_of : Object → invoker_exception Exn + string).
Context (tp_name : Object → string).
Implicit Types (self : TemplateInvoker Object Result Exn).
Implicit Types (function : Function Result Exn).
Implicit Types (dtype : Object) (name : string) (d : DType).
Implicit Types (T : ctype) (typesToTry : list ctype).

Lemma dtype_rows_names :
  (prod_map id nb_dtype <$> dtype_rows).*1 = dtype_rows.*1.
Proof. reflexivity. Qed.

Lemma dtype_rows_NoDup : NoDup dtype_rows.*1.
Proof. compute_done. Qed.

Lemma dtype_map_row name T :
  (name, T) ∈ dtype_rows → dtype_map nb_dtype !! name = Some (nb_dtype T).
Proof.
  intros Hrow. unfold dtype_map. apply elem_of_list_to_map_1.
  - rewrite dtype_rows_names. apply dtype_rows_NoDup.
  - apply list_elem_of_fmap. by exists (name, T).
Qed.

Lemma dtype_map_unknown name :
  name ∉ dtype_rows.*1 → dtype_map nb_dtype !! name = None.
Proof.
  intros Hname. unfold dtype_map. apply not_elem_of_list_to_map_1.
  by rewrite dtype_rows_names.
Qed.

(** Listed types whose dtype differs from the dtype asked for are
    skipped. *)
Lemma apply_skip self function dtype name d (l1 l2 : list ctype) :
  name_of dtype = inr name → dtype_map nb_dtype !! name = Some d →
  Forall (λ T, nb_dtype T ≠ d) l1 →
  _apply nb_dtype name_of self function dtype (l1 ++ l2)
  = _apply nb_dtype name_of self function dtype l2.
Proof.
  intros Hname Hd. induction 1 as [|T l1 HT _ IH]; simpl; [done|].
  rewrite Hname. unfold get_dtype. rewrite Hd.
  rewrite decide_False by congruence. apply IH.
Qed.

(** X13.  A dtype whose name is not in the table of [get_dtype]: with a
    non-empty list of types [apply] throws [std::out_of_range] with the
    message "TemplateInvoker: Invalid type " followed by the name,
    whatever the callable and the error callback are; with the empty list
    the name is not looked at and the error callback answers. *)
Theorem X13_unknown_dtype_name self function dtype name T typesToTry :
  name_of dtype = inr name → name ∉ dtype_rows.*1 →
  apply nb_dtype name_of self function dtype (T :: typesToTry)
  = inl (out_of_range ("TemplateInvoker: Invalid type " +:+ name))
  ∧ apply nb_dtype name_of self function dtype [] = _onError self dtype.
Proof.
  intros Hname Hunknown. split; [|done].
  unfold apply. simpl. rewrite Hname. unfold get_dtype.
  by rewrite (dtype_map_unknown name Hunknown).
Qed.

(** X14.  The first matching type wins.  For a dtype whose name is in
    the table, [apply] returns what the callable returns for the first
    listed type whose [nb::dtype<T>()] equals the dtype of the table,
    and what the error callback returns when no listed type matches. *)
Theorem X14_first_matching_type self function dtype name d typesToTry :
  name_of dtype = inr name → dtype_map nb_dtype !! name = Some d →
  (∀ l1 T l2,
     typesToTry = l1 ++ T :: l2 →
     Forall (λ T', nb_dtype T' ≠ d) l1 → nb_dtype T = d →
     apply nb_dtype name_of self function dtype typesToTry = function T)
  ∧ (Forall (λ T', nb_dtype T' ≠ d) typesToTry →
     apply nb_dtype name_of self function dtype typesToTry
     = _onError self dtype).
Proof.
  intros Hname Hd. unfold apply. split.
  - intros l1 T l2 -> Hl1 HT.
    rewrite (apply_skip self function dtype name d l1 _ Hname Hd Hl1).
    simpl. rewrite Hname. unfold get_dtype. rewrite Hd.
    by rewrite decide_True.
  - intros Hall.
    rewrite <-(app_nil_r typesToTry).
    by rewrite (apply_skip self function dtype name d _ [] Hname Hd Hall).
Qed.

(** X15.  The table dispatches each of its names to its type: for a row
    of [dtype_map], such as "float64" and [double], [apply] on a dtype of
    that name calls the callable at the type of the row, if the type is
    listed and no type listed before it has the same [nb::dtype]. *)
Theorem X15_table_dispatch self function dtype name T (l1 l2 : list ctype) :
  (name, T) ∈ dtype_rows → name_of dtype = inr name →
  Forall (λ T', nb_dtype T' ≠ nb_dtype T) l1 →
  apply nb_dtype name_of self function dtype (l1 ++ T :: l2) = function T.
Proof.
  intros Hrow Hname Hl1. unfold apply.
  pose proof (dtype_map_row name T Hrow) as Hd.
  rewrite (apply_skip self function dtype name _ l1 _ Hname Hd Hl1).
  simpl. rewrite Hname. unfold get_dtype. rewrite Hd.
  by rewrite decide_True.
Qed.

(** X16.  The default error callback: a [TemplateInvoker] constructed
    without a callback throws [nanobind::type_error] when no listed type
    matches (or none is listed), and the message it sets names the
    Python type of the dtype object, [tp_name], not the name of the
    dtype. *)
Theorem X16_default_error self function dtype name d typesToTry :
  self = default_TemplateInvoker tp_name →
  typesToTry = []
  ∨ (name_of dtype = inr name ∧ dtype_map nb_dtype !! name = Some d
     ∧ Forall (λ T', nb_dtype T' ≠ d) typesToTry) →
  apply nb_dtype name_of self function dtype typesToTry
  = inl (type_error ("dtype '" +:+ tp_name dtype +:+ "' not supported.")).
Proof.
  intros -> [->|(Hname & Hd & Hall)]; [done|]. unfold apply.
  rewrite <-(app_nil_r typesToTry).
  by rewrite (apply_skip _ function dtype name d _ [] Hname Hd Hall).
Qed.
End InvokerFacts.

(** * Instances on sample data, continued *)

Lemma X1_keys_unique_witness :
  let s : state string nat unit :=
    run (Exn := unit) [Add "A" 1; Add "B" 2; Add "A" 3] (new_Cache 2, ()) in
  reachable unit s
  ∧ ∃ ks, keys (Exn := unit) s = (Returned ks, s) ∧ NoDup ks.
Proof.
  cbn zeta.
  assert (reachable unit
            (run (Exn := unit) [Add "A" 1; Add "B" 2; Add "A" 3]
               (new_Cache 2, ()))) as Hs.
  { by exists 2, (), [Add "A" 1; Add "B" 2; Add "A" 3]. }
  split; [exact Hs|]. exact (X1_keys_unique _ Hs).
Defined.


Lemma X3_full_cache_evicts_least_recent_witness :
  let c1 : Cache string nat := mkCache 2 [("J", 1)] in
  (reachable unit (c1, ()) ∧ stored "L" c1 = None ∧ 0 < cache_capacity c1
   ∧ cache_size c1 < cache_capacity c1
   ∧ _container (after (Exn := unit) (add "L" 3) (c1, ())).1
     = [("L", 3); ("J", 1)])
  ∧ (reachable unit (cache_JK, ()) ∧ stored "L" cache_JK = None
     ∧ 0 < cache_capacity cache_JK
     ∧ cache_size cache_JK = cache_capacity cache_JK
     ∧ last (_container cache_JK) = Some ("K", 5)
     ∧ _container (after (Exn := unit) (add "L" 3) (cache_JK, ())).1
       = [("L", 3); ("J", 1)]
     ∧ stored "K" (after (Exn := unit) (add "L" 3) (cache_JK, ())).1
       = None).
Proof.
  cbn zeta.
  assert (reachable unit (mkCache 2 [("J", 1)], ())) as Hr1.
  { by exists 2, (), [Add "J" 1]. }
  assert (reachable unit (cache_JK, ())) as Hr2.
  { by exists 2, (), [Add "K" 5; Add "J" 1]. }
  assert (stored "L" (mkCache 2 [("J", 1)]) = None) as Hs1 by reflexivity.
  assert (stored "L" cache_JK = None) as Hs2 by reflexivity.
  assert (0 < cache_capacity (mkCache (Key := string) 2 [("J", 1)]))
    as Hc1 by (vm_compute; lia).
  assert (0 < cache_capacity cache_JK) as Hc2 by (vm_compute; lia).
  assert (cache_size (mkCache (Key := string) 2 [("J", 1)])
          < cache_capacity (mkCache (Key := string) 2 [("J", 1)]))
    as Hroom by (vm_compute; lia).
  assert (cache_size cache_JK = cache_capacity cache_JK)
    as Hfull by reflexivity.
  assert (last (_container cache_JK) = Some ("K", 5)) as Hlast
    by reflexivity.
  split.
  - split; [exact Hr1|]. split; [exact Hs1|]. split; [exact Hc1|].
    split; [exact Hroom|].
    exact (proj1 (X3_full_cache_evicts_least_recent
                    "L" 3 _ () Hr1 Hs1 Hc1) Hroom).
  - split; [exact Hr2|]. split; [exact Hs2|]. split; [exact Hc2|].
    split; [exact Hfull|]. split; [exact Hlast|].
    destruct (proj2 (X3_full_cache_evicts_least_recent
                       "L" 3 _ () Hr2 Hs2 Hc2) Hfull) as [Hcont Hev].
    split; [exact Hcont|]. exact (proj2 (Hev _ Hlast)).
Defined.

Lemma X5_call_is_add_of_generated_witness :
  length_of "K" () = (inl 1, ())
  ∧ (after (operator_call "K" length_of) (cache_J, ())).1
    = (after (Exn := unit) (add "K" 1) (cache_J, ())).1
  ∧ result_of (operator_call "K" length_of) (cache_JK, ()) = Returned 5.
Proof.
  assert (length_of "K" () = (inl 1, ())) as Hf by reflexivity.
  split; [exact Hf|]. split.
  - exact (proj1 (X5_call_is_add_of_generated
                    "K" length_of 1 cache_J () () Hf)).
  - rewrite (proj2 (X5_call_is_add_of_generated
                      "K" length_of 1 cache_JK () () Hf)).
    reflexivity.
Defined.

Lemma X8_lookups_keep_entries_witness :
  let op : method string nat unit unit := Get "K" in
  inserting op = false ∧ (∀ n, op ≠ Reserve n) ∧ op ≠ Flush
  ∧ _container (after (perform op) (cache_JK, ())).1
    ≡ₚ _container cache_JK.
Proof.
  cbn zeta.
  assert (∀ n, (Get "K" : method string nat unit unit) ≠ Reserve n)
    as Hres by (intros n; discriminate).
  assert ((Get "K" : method string nat unit unit) ≠ Flush)
    as Hflush by discriminate.
  split; [reflexivity|]. split; [exact Hres|]. split; [exact Hflush|].
  exact (proj1 (X8_lookups_keep_entries (Get "K") cache_JK ()
                  eq_refl Hres Hflush)).
Defined.


Lemma X10_reserve_compose_witness :
  let c : Cache string nat := mkCache 3 [("A", 1); ("B", 2); ("C", 3)] in
  (0 < 1 ∧ 0 < 3
   ∧ _container
       (after (Exn := unit) (reserve 3)
          (after (Exn := unit) (reserve 1) (c, ()))).1 = [("A", 1)])
  ∧ (cache_size c ≤ 5
     ∧ _container (after (Exn := unit) (reserve 5) (c, ())).1
       = _container c)
  ∧ (reachable unit (c, ())
     ∧ after (Exn := unit) (reserve (cache_capacity c)) (c, ()) = (c, ())).
Proof.
  cbn zeta.
  assert (reachable unit
            (mkCache 3 [("A", 1); ("B", 2); ("C", 3)], ())) as Hr.
  { by exists 3, (), [Add "C" 3; Add "B" 2; Add "A" 1]. }
  assert (cache_size (mkCache (Key := string) 3
                        [("A", 1); ("B", 2); ("C", 3)]) ≤ 5) as Hsize
    by (vm_compute; lia).
  assert (0 < 1) as H1 by lia. assert (0 < 3) as H3 by lia.
  split; [|split].
  - split; [exact H1|]. split; [exact H3|].
    exact (proj1 (X10_reserve_compose (Exn := unit) 1 3
                    (mkCache 3 [("A", 1); ("B", 2); ("C", 3)]) ()) H1 H3).
  - split; [exact Hsize|].
    exact (proj1 (proj2 (X10_reserve_compose (Exn := unit) 5 0
                           (mkCache 3 [("A", 1); ("B", 2); ("C", 3)]) ()))
             (or_intror Hsize)).
  - split; [exact Hr|].
    exact (proj2 (proj2 (X10_reserve_compose (Exn := unit) 0 0
                           (mkCache 3 [("A", 1); ("B", 2); ("C", 3)]) ()))
             Hr).
Defined.

Lemma X11_keeps_most_recent_witness :
  let entries := [("A", 1); ("B", 2); ("C", 3)] in
  NoDup entries.*1
  ∧ _container
      (run (Exn := unit) (map (λ e, Add e.1 e.2) entries)
         (new_Cache 2, ())).1
    = [("C", 3); ("B", 2)].
Proof.
  cbn zeta.
  assert (NoDup [("A", 1); ("B", 2); ("C", 3)].*1) as Hnd.
  { vm_compute. repeat constructor; rewrite ?list_elem_of_In; simpl;
      intuition discriminate. }
  split; [exact Hnd|].
  exact (proj1 (X11_keeps_most_recent (Exn := unit) _ 2 () Hnd)).
Defined.

Lemma X12_lookup_survives_next_insert_witness :
  let op : method string nat unit unit := Contains "K" in
  cache_capacity cache_JK ≠ 1 ∧ accessed_key op = Some "K"
  ∧ stored "K" cache_JK = Some 5 ∧ stored "L" cache_JK = None
  ∧ stored "K"
      (after (Exn := unit) (add "L" 3)
         (after (perform op) (cache_JK, ()))).1 = Some 5.
Proof.
  cbn zeta.
  assert (cache_capacity cache_JK ≠ 1) as Hcap by (vm_compute; lia).
  assert (stored "K" cache_JK = Some 5) as HK by reflexivity.
  assert (stored "L" cache_JK = None) as HL by reflexivity.
  split; [exact Hcap|]. split; [reflexivity|]. split; [exact HK|].
  split; [exact HL|].
  exact (proj2 (X12_lookup_survives_next_insert
                  (Contains "K" : method string nat unit unit)
                  "K" "L" 5 3 cache_JK () Hcap eq_refl HK HL)).
Defined.

Lemma X13_unknown_dtype_name_witness :
  sample_name "complex64" = inr "complex64"
  ∧ ("complex64" ∉ dtype_rows.*1)
  ∧ apply sample_dtype sample_name sample_invoker sample_function
      "complex64" [float; double]
    = inl (out_of_range "TemplateInvoker: Invalid type complex64").
Proof.
  assert ("complex64" ∉ dtype_rows.*1) as Hunknown by compute_done.
  split; [reflexivity|]. split; [exact Hunknown|].
  exact (proj1 (X13_unknown_dtype_name sample_dtype sample_name
                  sample_invoker sample_function "complex64" "complex64"
                  float [double] eq_refl Hunknown)).
Defined.

Lemma X14_first_matching_type_witness :
  sample_name "int64" = inr "int64"
  ∧ dtype_map sample_dtype !! "int64" = Some (0, 64)
  ∧ (Forall (λ T', sample_dtype T' ≠ (0, 64)) [double]
     ∧ sample_dtype (other_type "long long") = (0, 64)
     ∧ apply sample_dtype sample_name sample_invoker sample_function "int64"
         ([double] ++ other_type "long long" :: [int64_t])
       = sample_function (other_type "long long"))
  ∧ (Forall (λ T', sample_dtype T' ≠ (0, 64)) [double; int32_t]
     ∧ apply sample_dtype sample_name sample_invoker sample_function "int64"
         [double; int32_t]
       = inr 0).
Proof.
  assert (dtype_map sample_dtype !! "int64" = Some (0, 64)) as Hd
    by (vm_compute; reflexivity).
  assert (Forall (λ T', sample_dtype T' ≠ (0, 64)) [double]) as H1.
  { repeat constructor; discriminate. }
  assert (Forall (λ T', sample_dtype T' ≠ (0, 64)) [double; int32_t]) as H2.
  { repeat constructor; discriminate. }
  split; [reflexivity|]. split; [exact Hd|]. split.
  - split; [exact H1|]. split; [reflexivity|].
    exact (proj1 (X14_first_matching_type sample_dtype sample_name
                    sample_invoker sample_function "int64" "int64" (0, 64)
                    _ eq_refl Hd)
             [double] (other_type "long long") [int64_t] eq_refl H1 eq_refl).
  - split; [exact H2|].
    exact (proj2 (X14_first_matching_type sample_dtype sample_name
                    sample_invoker sample_function "int64" "int64" (0, 64)
                    _ eq_refl Hd) H2).
Defined.

Lemma X15_table_dispatch_witness :
  ("float64", double) ∈ dtype_rows
  ∧ sample_name "float64" = inr "float64"
  ∧ Forall (λ T', sample_dtype T' ≠ sample_dtype double) [int32_t; float]
  ∧ apply sample_dtype sample_name sample_invoker sample_function "float64"
      ([int32_t; float] ++ double :: [])
    = inr 64.
Proof.
  assert (("float64", double) ∈ dtype_rows) as Hrow.
  { unfold dtype_rows. do 9 apply list_elem_of_further.
    apply list_elem_of_here. }
  assert (Forall (λ T', sample_dtype T' ≠ sample_dtype double)
            [int32_t; float]) as Hskip.
  { repeat constructor; discriminate. }
  split; [exact Hrow|]. split; [reflexivity|]. split; [exact Hskip|].
  exact (X15_table_dispatch sample_dtype sample_name sample_invoker
           sample_function "float64" "float64" double [int32_t; float] []
           Hrow eq_refl Hskip).
Defined.

Lemma X16_default_error_witness :
  let self : TemplateInvoker string nat unit :=
    default_TemplateInvoker sample_tp_name in
  sample_name "float64" = inr "float64"
  ∧ dtype_map sample_dtype !! "float64" = Some (2, 64)
  ∧ Forall (λ T', sample_dtype T' ≠ (2, 64)) [int32_t; float]
  ∧ apply sample_dtype sample_name self sample_function "float64"
      [int32_t; float]
    = inl (type_error "dtype 'numpy.dtype' not supported.").
Proof.
  cbn zeta.
  assert (dtype_map sample_dtype !! "float64" = Some (2, 64)) as Hd
    by (vm_compute; reflexivity).
  assert (Forall (λ T', sample_dtype T' ≠ (2, 64)) [int32_t; float])
    as Hnone.
  { repeat constructor; discriminate. }
  split; [reflexivity|]. split; [exact Hd|]. split; [exact Hnone|].
  exact (X16_default_error sample_dtype sample_name sample_tp_name
           (default_TemplateInvoker sample_tp_name) sample_function
           "float64" "float64" (2, 64) [int32_t; float] eq_refl
           (or_intror (conj eq_refl (conj Hd Hnone)))).
Defined.
